(** * The streaming chat client of the Nigerian Laws AI assistant

    A shallow embedding of [frontend/app/page.tsx]: the [Home] component's
    state, the submit handler [handleSubmit] with its stream consumer, and the
    readiness poller [checkServerStatus], together with the parts of the
    JavaScript runtime they call ([String.prototype] helpers, [JSON.parse],
    [TextDecoder], the reader of a [ReadableStream]).

    JavaScript strings are sequences of UTF-16 code units; they are modelled
    as lists of [N].  The bytes of the response body are [Byte.byte]. *)

From Stdlib Require Import NArith List Bool Lia String Ascii DecimalString.
From Stdlib Require Strings.Byte.
From stdpp Require Import base option list strings gmap.

Set Warnings "-register-all".
Local Open Scope N_scope.

(** ** JavaScript strings *)

Module Js.

(** A string value: its UTF-16 code units. *)
Abbreviation jsstring := (list N).

(** A string literal of the source (ASCII range). *)
Definition lit (s : string) : jsstring :=
  map N_of_ascii (list_ascii_of_string s).

(** The decimal rendering of a number inside a template literal. *)
Definition of_number (n : N) : jsstring :=
  match n with
  | N0 => lit "0"
  | _ => lit (NilEmpty.string_of_uint (N.to_uint n))
  end.

(** ECMAScript [WhiteSpace] and [LineTerminator] code points, the ones
    [String.prototype.trim] strips. *)
Definition is_white_space (c : N) : bool :=
  (c =? 0x09) || (c =? 0x0A) || (c =? 0x0B) || (c =? 0x0C) || (c =? 0x0D)
  || (c =? 0x20) || (c =? 0xA0) || (c =? 0x1680)
  || ((0x2000 <=? c) && (c <=? 0x200A))
  || (c =? 0x2028) || (c =? 0x2029) || (c =? 0x202F) || (c =? 0x205F)
  || (c =? 0x3000) || (c =? 0xFEFF).

Fixpoint trimStart (s : jsstring) : jsstring :=
  match s with
  | c :: s' => if is_white_space c then trimStart s' else s
  | [] => []
  end.

Definition trimEnd (s : jsstring) : jsstring := rev (trimStart (rev s)).

(** [s.trim()] *)
Definition trim (s : jsstring) : jsstring := trimEnd (trimStart s).

(** The code unit of a line feed. *)
Definition LF : N := 0x0A.

(** [s.split(sep)] for a separator of one code unit: the pieces between the
    separators, the empty ones included; never the empty list. *)
Fixpoint split (sep : N) (s : jsstring) : list jsstring :=
  match s with
  | [] => [[]]
  | c :: s' =>
      if c =? sep then [] :: split sep s'
      else match split sep s' with
           | l :: ls => (c :: l) :: ls
           | [] => [[c]]
           end
  end.

(** [s.startsWith(prefix)] *)
Fixpoint startsWith (s prefix : jsstring) {struct prefix} : bool :=
  match prefix, s with
  | [], _ => true
  | p :: prefix', c :: s' => (c =? p) && startsWith s' prefix'
  | _ :: _, [] => false
  end.

(** [s.substring(start)] *)
Definition substring (start : nat) (s : jsstring) : jsstring := drop start s.

(** Truthiness of a string: the empty string is falsy. *)
Definition truthy (s : jsstring) : bool :=
  match s with [] => false | _ :: _ => true end.

(** Strict inequality with the empty string, [s !== '']. *)
Definition nonempty (s : jsstring) : bool := truthy s.

(** A value interpolated in a template literal; [undefined] prints as the
    word. *)
Definition interpolate (v : option jsstring) : jsstring :=
  match v with
  | Some s => s
  | None => lit "undefined"
  end.

End Js.

Import Js.

(** ** JSON values and [JSON.parse] *)

Module Json.

(** What [JSON.parse] can return.  A number keeps the text of its literal:
    the client only ever asks for its type.  An object keeps its members in
    source order, duplicates included. *)
Inductive JsValue : Type :=
| JNull
| JBool (b : bool)
| JNumber (lexeme : jsstring)
| JString (s : jsstring)
| JArray (items : list JsValue)
| JObject (members : list (jsstring * JsValue)).

Inductive JsType : Type := TUndefined | TObject | TBoolean | TNumber | TString.

(** [typeof v]; [None] stands for [undefined].  [typeof null] is
    ["object"]. *)
Definition typeof (v : option JsValue) : JsType :=
  match v with
  | None => TUndefined
  | Some JNull => TObject
  | Some (JBool _) => TBoolean
  | Some (JNumber _) => TNumber
  | Some (JString _) => TString
  | Some (JArray _) => TObject
  | Some (JObject _) => TObject
  end.

Definition JsType_eqb (a b : JsType) : bool :=
  match a, b with
  | TUndefined, TUndefined | TObject, TObject | TBoolean, TBoolean
  | TNumber, TNumber | TString, TString => true
  | _, _ => false
  end.

(** The value of the last member named [k]: a later duplicate overwrites an
    earlier one. *)
Fixpoint lookup_member (k : jsstring) (ms : list (jsstring * JsValue))
  : option JsValue :=
  match ms with
  | [] => None
  | (k', v) :: ms' =>
      match lookup_member k ms' with
      | Some v' => Some v'
      | None => if decide (k = k') then Some v else None
      end
  end.

(** [v.k] for a property name [k] that no prototype defines and that is
    neither an index nor ["length"] (the client reads [type], [content],
    [error] and [status]): an own member of an object, else [undefined]. *)
Definition get (v : JsValue) (k : jsstring) : option JsValue :=
  match v with
  | JObject ms => lookup_member k ms
  | _ => None
  end.

(** [x === 'literal'] for a property value. *)
Definition is_string (v : option JsValue) (s : jsstring) : bool :=
  match v with
  | Some (JString s') => bool_decide (s' = s)
  | _ => false
  end.

Definition is_json_ws (c : N) : bool :=
  (c =? 0x20) || (c =? 0x09) || (c =? 0x0A) || (c =? 0x0D).

Fixpoint skip_ws (s : jsstring) : jsstring :=
  match s with
  | c :: s' => if is_json_ws c then skip_ws s' else s
  | [] => []
  end.

Definition is_digit (c : N) : bool := (0x30 <=? c) && (c <=? 0x39).

Definition hex_digit (c : N) : option N :=
  if is_digit c then Some (c - 0x30)
  else if (0x41 <=? c) && (c <=? 0x46) then Some (c - 0x41 + 10)
  else if (0x61 <=? c) && (c <=? 0x66) then Some (c - 0x61 + 10)
  else None.

(** The character a one-letter escape stands for: quotation mark,
    backslash, slash, b, f, n, r, t. *)
Definition unescape (e : N) : option N :=
  if e =? 0x22 then Some 0x22
  else if e =? 0x5C then Some 0x5C
  else if e =? 0x2F then Some 0x2F
  else if e =? 0x62 then Some 0x08
  else if e =? 0x66 then Some 0x0C
  else if e =? 0x6E then Some 0x0A
  else if e =? 0x72 then Some 0x0D
  else if e =? 0x74 then Some 0x09
  else None.

Definition push (c : N) (r : option (jsstring * jsstring))
  : option (jsstring * jsstring) :=
  match r with
  | Some (str, rest) => Some (c :: str, rest)
  | None => None
  end.

(** A string literal after its opening quote: the value and the rest of the
    input after the closing quote. *)
Fixpoint parse_string_body (s : jsstring) : option (jsstring * jsstring) :=
  match s with
  | [] => None
  | c :: s1 =>
      if c =? 0x22 then Some ([], s1)
      else if c =? 0x5C then
        match s1 with
        | [] => None
        | e :: s2 =>
            if e =? 0x75 then
              match s2 with
              | h1 :: h2 :: h3 :: h4 :: s3 =>
                  match hex_digit h1, hex_digit h2, hex_digit h3, hex_digit h4 with
                  | Some a, Some b, Some c', Some d =>
                      push (((a * 16 + b) * 16 + c') * 16 + d)
                           (parse_string_body s3)
                  | _, _, _, _ => None
                  end
              | _ => None
              end
            else
              match unescape e with
              | Some u => push u (parse_string_body s2)
              | None => None
              end
        end
      else if c <? 0x20 then None
      else push c (parse_string_body s1)
  end.

Fixpoint take_digits (s : jsstring) : jsstring * jsstring :=
  match s with
  | c :: s' =>
      if is_digit c then let (ds, r) := take_digits s' in (c :: ds, r)
      else ([], s)
  | [] => ([], [])
  end.

(** A number literal: an optional minus sign; a single zero, or a nonzero
    digit followed by digits; an optional fraction (a point and at least
    one digit); an optional exponent (e or E, an optional sign, at least
    one digit). *)
Definition parse_number (s : jsstring) : option (jsstring * jsstring) :=
  let (sign, s1) :=
    match s with
    | c :: s' => if c =? 0x2D then ([c], s') else ([], s)
    | [] => ([], s)
    end in
  match s1 with
  | [] => None
  | c :: s2 =>
      if negb (is_digit c) then None
      else
        let (int, s3) :=
          if c =? 0x30 then ([c], s2)
          else let (ds, r) := take_digits s2 in (c :: ds, r) in
        let frac :=
          match s3 with
          | p :: s4 =>
              if p =? 0x2E then
                match take_digits s4 with
                | ([], _) => None
                | (ds, r) => Some (p :: ds, r)
                end
              else Some ([], s3)
          | [] => Some ([], s3)
          end in
        match frac with
        | None => None
        | Some (fr, s5) =>
            let exp :=
              match s5 with
              | e :: s6 =>
                  if (e =? 0x65) || (e =? 0x45) then
                    let (esign, s7) :=
                      match s6 with
                      | g :: s' =>
                          if (g =? 0x2B) || (g =? 0x2D) then ([g], s')
                          else ([], s6)
                      | [] => ([], s6)
                      end in
                    match take_digits s7 with
                    | ([], _) => None
                    | (ds, r) => Some (e :: esign ++ ds, r)
                    end
                  else Some ([], s5)
              | [] => Some ([], s5)
              end in
            match exp with
            | None => None
            | Some (ex, s8) => Some (sign ++ int ++ fr ++ ex, s8)
            end
        end
  end.

(** A keyword ([true], [false], [null]) at the head of the input. *)
Definition parse_keyword (kw : jsstring) (v : JsValue) (s : jsstring)
  : option (JsValue * jsstring) :=
  if startsWith s kw then Some (v, drop (length kw) s) else None.

(** A value, the members of an object after its [{], the elements of an
    array after its [[].  Every recursive call comes after at least one
    code unit was consumed, so [S (length s)] units of fuel are enough. *)
Fixpoint parse_value (fuel : nat) (s : jsstring) {struct fuel}
  : option (JsValue * jsstring) :=
  match fuel with
  | O => None
  | S fuel' =>
      match skip_ws s with
      | [] => None
      | c :: s1 =>
          if c =? 0x22 then
            match parse_string_body s1 with
            | Some (str, r) => Some (JString str, r)
            | None => None
            end
          else if c =? 0x7B then
            match skip_ws s1 with
            | c' :: s2 =>
                if c' =? 0x7D then Some (JObject [], s2)
                else
                  match parse_members fuel' s1 with
                  | Some (ms, r) => Some (JObject ms, r)
                  | None => None
                  end
            | [] => None
            end
          else if c =? 0x5B then
            match skip_ws s1 with
            | c' :: s2 =>
                if c' =? 0x5D then Some (JArray [], s2)
                else
                  match parse_elements fuel' s1 with
                  | Some (vs, r) => Some (JArray vs, r)
                  | None => None
                  end
            | [] => None
            end
          else if c =? 0x74 then parse_keyword (lit "true") (JBool true) (c :: s1)
          else if c =? 0x66 then parse_keyword (lit "false") (JBool false) (c :: s1)
          else if c =? 0x6E then parse_keyword (lit "null") JNull (c :: s1)
          else
            match parse_number (c :: s1) with
            | Some (lexeme, r) => Some (JNumber lexeme, r)
            | None => None
            end
      end
  end
with parse_members (fuel : nat) (s : jsstring) {struct fuel}
  : option (list (jsstring * JsValue) * jsstring) :=
  match fuel with
  | O => None
  | S fuel' =>
      match skip_ws s with
      | q :: s1 =>
          if q =? 0x22 then
            match parse_string_body s1 with
            | None => None
            | Some (k, r1) =>
                match skip_ws r1 with
                | colon :: r2 =>
                    if colon =? 0x3A then
                      match parse_value fuel' r2 with
                      | None => None
                      | Some (v, r3) =>
                          match skip_ws r3 with
                          | d :: r4 =>
                              if d =? 0x2C then
                                match parse_members fuel' r4 with
                                | Some (ms, r5) => Some ((k, v) :: ms, r5)
                                | None => None
                                end
                              else if d =? 0x7D then Some ([(k, v)], r4)
                              else None
                          | [] => None
                          end
                      end
                    else None
                | [] => None
                end
            end
          else None
      | [] => None
      end
  end
with parse_elements (fuel : nat) (s : jsstring) {struct fuel}
  : option (list JsValue * jsstring) :=
  match fuel with
  | O => None
  | S fuel' =>
      match parse_value fuel' s with
      | None => None
      | Some (v, r1) =>
          match skip_ws r1 with
          | d :: r2 =>
              if d =? 0x2C then
                match parse_elements fuel' r2 with
                | Some (vs, r3) => Some (v :: vs, r3)
                | None => None
                end
              else if d =? 0x5D then Some ([v], r2)
              else None
          | [] => None
          end
      end
  end.

(** [JSON.parse(text)]: [None] when it throws a [SyntaxError]. *)
Definition parse (text : jsstring) : option JsValue :=
  match parse_value (S (length text)) text with
  | Some (v, rest) =>
      match skip_ws rest with
      | [] => Some v
      | _ :: _ => None
      end
  | None => None
  end.

End Json.

Import Json.

(** ** [TextDecoder]: the streaming UTF-8 decoder *)

Module TextDecoder.

(** The state [new TextDecoder()] keeps between calls of
    [decode(value, {stream: true})]: the UTF-8 decoder's registers and
    whether the byte order mark was looked for. *)
Record t : Type := mk {
  code_point : N;
  bytes_seen : N;
  bytes_needed : N;
  lower_boundary : N;
  upper_boundary : N;
  bom_seen : bool
}.

Definition new : t := mk 0 0 0 0x80 0xBF false.

(** The registers back to their initial values. *)
Definition reset (d : t) : t := mk 0 0 0 0x80 0xBF (bom_seen d).

(** The replacement character, emitted for a malformed sequence. *)
Definition REPLACEMENT : N := 0xFFFD.

(** A byte met when no sequence is under way. *)
Definition lead (d : t) (b : N) : t * list N :=
  if b <=? 0x7F then (d, [b])
  else if (0xC2 <=? b) && (b <=? 0xDF) then
    (mk (N.land b 0x1F) 0 1 0x80 0xBF (bom_seen d), [])
  else if (0xE0 <=? b) && (b <=? 0xEF) then
    (mk (N.land b 0xF) 0 2
        (if b =? 0xE0 then 0xA0 else 0x80)
        (if b =? 0xED then 0x9F else 0xBF) (bom_seen d), [])
  else if (0xF0 <=? b) && (b <=? 0xF4) then
    (mk (N.land b 0x7) 0 3
        (if b =? 0xF0 then 0x90 else 0x80)
        (if b =? 0xF4 then 0x8F else 0xBF) (bom_seen d), [])
  else (d, [REPLACEMENT]).

(** One byte through the decoder: the new registers and the code points
    that come out.  A byte that cannot continue the sequence under way ends
    it with a replacement character and is then read again as a first
    byte. *)
Definition handler (d : t) (b : N) : t * list N :=
  if bytes_needed d =? 0 then lead d b
  else if negb ((lower_boundary d <=? b) && (b <=? upper_boundary d)) then
    let (d', out) := lead (reset d) b in (d', REPLACEMENT :: out)
  else
    let cp := N.lor (N.shiftl (code_point d) 6) (N.land b 0x3F) in
    let seen := bytes_seen d + 1 in
    if seen =? bytes_needed d then (reset d, [cp])
    else (mk cp seen (bytes_needed d) 0x80 0xBF (bom_seen d), []).

(** The UTF-16 code units of a code point. *)
Definition utf16 (cp : N) : jsstring :=
  if cp <? 0x10000 then [cp]
  else
    let c := cp - 0x10000 in
    [0xD800 + N.shiftr c 10; 0xDC00 + N.land c 0x3FF].

(** Code points to text; a byte order mark at the very start of the stream
    is dropped. *)
Fixpoint serialize (d : t) (cps : list N) : t * jsstring :=
  match cps with
  | [] => (d, [])
  | cp :: cps' =>
      let d1 := mk (code_point d) (bytes_seen d) (bytes_needed d)
                   (lower_boundary d) (upper_boundary d) true in
      let (d2, out) := serialize d1 cps' in
      if negb (bom_seen d) && (cp =? 0xFEFF) then (d2, out)
      else (d2, utf16 cp ++ out)
  end.

(** [decoder.decode(value, {stream: true})]: an incomplete sequence at the
    end of [value] stays in the registers for the next call. *)
Fixpoint decode (d : t) (value : list Byte.byte) : t * jsstring :=
  match value with
  | [] => (d, [])
  | b :: rest =>
      let (d1, cps) := handler d (Byte.to_N b) in
      let (d2, out) := serialize d1 cps in
      let (d3, out') := decode d2 rest in
      (d3, out ++ out')
  end.

End TextDecoder.

(** ** The component's state *)

Inductive Role : Type := user | assistant.

(** [interface Message]; [isError] is optional. *)
Record Message : Type := mkMessage {
  role : Role;
  content : jsstring;
  isError : option bool
}.

(** The four [useState] cells of [Home]. *)
Record State : Type := mkState {
  messages : list Message;
  input : jsstring;
  loading : bool;
  isServerReady : bool
}.

(** The value of [process.env]. *)
Abbreviation Env := (gmap string jsstring).

(** A thrown value: an [Error] with its [message]. *)
Record JsError : Type := mkError { message : jsstring }.

(** ** What the component does to the outside, in order *)

Inductive Method : Type := GET | POST.

Inductive Level : Type := LogLevel | WarnLevel | ErrorLevel.

Inductive Effect : Type :=
| PreventDefault
| SetInput (v : jsstring)
| SetLoading (v : bool)
| SetMessages (next : list Message)   (* the log the updater returned *)
| SetIsServerReady (v : bool)
| Fetch (method : Method) (url : jsstring) (body : option JsValue)
                                      (* the value given to JSON.stringify *)
| ReaderRead
| ReaderCancel
| SetTimeout (delay : N)
| Console (level : Level).

(** ** The network, as the handler meets it *)

(** How the body's stream ends once its chunks are read. *)
Inductive StreamEnd : Type := Closes | Errors (e : JsError).

Record Stream : Type := mkStream {
  chunks : list (list Byte.byte);
  ending : StreamEnd
}.

Record Response : Type := mkResponse {
  ok : bool;
  status : N;
  statusText : jsstring;
  body : option Stream
}.

(** What [fetch] settles to. *)
Inductive FetchResult : Type :=
| Rejects (e : JsError)
| Resolves (response : Response).

(** One health poll: [fetch] rejects, or resolves to a response with this
    [ok] flag and this body text. *)
Inductive HealthReply : Type :=
| HealthRejects (e : JsError)
| HealthResolves (ok : bool) (text : jsstring).

(** ** Computations: state, exceptions and the effect trace *)

Inductive Outcome (A : Type) : Type :=
| Returns (a : A)
| Throws (e : JsError).
Arguments Returns {A} a.
Arguments Throws {A} e.

Definition Comp (A : Type) : Type := State -> Outcome A * State * list Effect.

Definition ret {A} (a : A) : Comp A := fun s => (Returns a, s, []).

Definition bind {A B} (m : Comp A) (k : A -> Comp B) : Comp B :=
  fun s =>
    match m s with
    | (Returns a, s1, t1) => let '(o, s2, t2) := k a s1 in (o, s2, t1 ++ t2)
    | (Throws e, s1, t1) => (Throws e, s1, t1)
    end.

Definition throw {A} (e : JsError) : Comp A := fun s => (Throws e, s, []).

(** [try { m } catch (e) { h e }] *)
Definition try_catch {A} (m : Comp A) (h : JsError -> Comp A) : Comp A :=
  fun s =>
    match m s with
    | (Returns a, s1, t1) => (Returns a, s1, t1)
    | (Throws e, s1, t1) => let '(o, s2, t2) := h e s1 in (o, s2, t1 ++ t2)
    end.

(** [try { m } finally { f }] *)
Definition finally {A} (m : Comp A) (f : Comp unit) : Comp A :=
  fun s =>
    let '(o, s1, t1) := m s in
    match f s1 with
    | (Returns _, s2, t2) => (o, s2, t1 ++ t2)
    | (Throws e, s2, t2) => (Throws e, s2, t1 ++ t2)
    end.

Definition emit (e : Effect) : Comp unit := fun s => (Returns tt, s, [e]).

Declare Scope comp_scope.
Delimit Scope comp_scope with comp.
Notation "x <- m ;; k" := (bind m (fun x => k))
  (at level 100, m at next level, right associativity) : comp_scope.
Notation "m ;; k" := (bind m (fun _ => k))
  (at level 100, right associativity) : comp_scope.
Local Open Scope comp_scope.

(** The state setters.  [setMessages] takes an updater, as every call in the
    source does; the updaters are applied in the order of the calls, each to
    the log the one before it returned.

    The updaters of the loop close over the accumulator, a [let] that the
    loop goes on assigning, and read it when they run.  Here an updater runs
    at its call.  React may run it later, after further events of the same
    read were handled, and then it writes the longer text the accumulator
    holds by then.  So the [SetMessages] entry of a chunk records the log of
    an updater that runs at once; with a later run the entry would hold a
    longer text, never a different message, role or flag.  What does not
    depend on when the updaters run, and is all that the theorems below state
    of the logs: how many updates there are and in which order, the shape of
    every log, and the log after the last update, since no assignment to the
    accumulator follows the last call. *)
Definition setInput (v : jsstring) : Comp unit :=
  fun s => (Returns tt, mkState (messages s) v (loading s) (isServerReady s),
            [SetInput v]).

Definition setLoading (v : bool) : Comp unit :=
  fun s => (Returns tt, mkState (messages s) (input s) v (isServerReady s),
            [SetLoading v]).

Definition setIsServerReady (v : bool) : Comp unit :=
  fun s => (Returns tt, mkState (messages s) (input s) (loading s) v,
            [SetIsServerReady v]).

Definition setMessages (updater : list Message -> list Message) : Comp unit :=
  fun s =>
    let next := updater (messages s) in
    (Returns tt, mkState next (input s) (loading s) (isServerReady s),
     [SetMessages next]).

(** [fetch(url, ...)] against a network that settles to [net]. *)
Definition fetch (net : FetchResult) (method : Method) (url : jsstring)
    (payload : option JsValue) : Comp Response :=
  emit (Fetch method url payload) ;;
  match net with
  | Rejects e => throw e
  | Resolves response => ret response
  end.

(** ** The updaters given to [setMessages] *)

(** [prevMessages.slice(0, -1)] *)
Definition slice_0_m1 (prevMessages : list Message) : list Message :=
  removelast prevMessages.

Definition is_assistant (m : Message) : bool :=
  match role m with assistant => true | user => false end.

(** The updater of a chunk event. *)
Definition chunk_updater (accumulatedContent : jsstring)
    (prevMessages : list Message) : list Message :=
  match last prevMessages with
  | Some lastMessage =>
      if is_assistant lastMessage then
        slice_0_m1 prevMessages
          ++ [mkMessage (role lastMessage) accumulatedContent (isError lastMessage)]
      else prevMessages
  | None => prevMessages
  end.

(** The updater of an error event. *)
Definition error_updater (accumulatedContent error : jsstring)
    (prevMessages : list Message) : list Message :=
  match last prevMessages with
  | Some lastMessage =>
      if is_assistant lastMessage then
        slice_0_m1 prevMessages
          ++ [mkMessage (role lastMessage)
                (accumulatedContent ++ [LF; LF] ++ lit "Error: " ++ error)
                (Some true)]
      else
        prevMessages ++ [mkMessage assistant (lit "Error: " ++ error) (Some true)]
  | None =>
      prevMessages ++ [mkMessage assistant (lit "Error: " ++ error) (Some true)]
  end.

(** The updater of the [catch] block. *)
Definition catch_updater (error : JsError) (prevMessages : list Message)
    : list Message :=
  let text := lit "Error: Could not stream response. Details: " ++ message error in
  match last prevMessages with
  | Some lastMessage =>
      if is_assistant lastMessage then
        slice_0_m1 prevMessages
          ++ [mkMessage (role lastMessage) text (Some true)]
      else prevMessages ++ [mkMessage assistant text (Some true)]
  | None => prevMessages ++ [mkMessage assistant text (Some true)]
  end.

(** ** The stream consumer *)

(** The locals of [handleSubmit] that the loops change: the accumulator and
    whether [reader.cancel()] was called. *)
Record Locals : Type := mkLocals {
  accumulatedContent : jsstring;
  cancelled : bool
}.

(** How an iteration of [for (const line of lines)] ends. *)
Inductive Flow : Type := Next | Break.

(** The lines of one decoded read:
    [chunk.split('\n').filter(line => line.trim() !== '')]. *)
Definition lines_of (chunk : jsstring) : list jsstring :=
  List.filter (fun line => nonempty (trim line)) (split LF chunk).

(** The body of the [for] loop. *)
Definition on_line (line : jsstring) (loc : Locals) : Comp (Locals * Flow) :=
  if startsWith line (lit "data: ") then
    let jsonString := substring 6 line in
    match Json.parse jsonString with
    | Some parsed =>
        if JsType_eqb (typeof (Some parsed)) TObject
           && negb (match parsed with JNull => true | _ => false end)
        then
          match is_string (get parsed (lit "type")) (lit "chunk"),
                get parsed (lit "content") with
          | true, Some (JString text) =>
              let acc := accumulatedContent loc ++ text in
              setMessages (chunk_updater acc) ;;
              ret (mkLocals acc (cancelled loc), Next)
          | _, _ =>
              match is_string (get parsed (lit "type")) (lit "error"),
                    get parsed (lit "error") with
              | true, Some (JString error) =>
                  emit (Console ErrorLevel) ;;
                  setMessages (error_updater (accumulatedContent loc) error) ;;
                  emit ReaderCancel ;;
                  ret (mkLocals (accumulatedContent loc) true, Break)
              | _, _ => ret (loc, Next)
              end
          end
        else
          emit (Console WarnLevel) ;; ret (loc, Next)
    | None =>
        emit (Console ErrorLevel) ;; ret (loc, Next)
    end
  else ret (loc, Next).

(** [for (const line of lines) { ... }] *)
Fixpoint for_lines (lines : list jsstring) (loc : Locals) : Comp Locals :=
  match lines with
  | [] => ret loc
  | line :: rest =>
      r <- on_line line loc ;;
      match snd r with
      | Break => ret (fst r)
      | Next => for_lines rest (fst r)
      end
  end.

(** [while (true) { const { done, value } = await reader.read(); ... }] over
    a reader with [pending] chunks still to deliver.  A cancelled reader
    reports [done]; so does a drained stream that closes; a drained stream
    that errors makes [read()] reject. *)
Fixpoint read_loop (pending : list (list Byte.byte)) (ending : StreamEnd)
    (decoder : TextDecoder.t) (loc : Locals) : Comp unit :=
  emit ReaderRead ;;
  if cancelled loc then emit (Console LogLevel)
  else
    match pending with
    | [] =>
        match ending with
        | Closes => emit (Console LogLevel)
        | Errors e => throw e
        end
    | value :: rest =>
        let (decoder', chunk) := TextDecoder.decode decoder value in
        loc' <- for_lines (lines_of chunk) loc ;;
        read_loop rest ending decoder' loc'
    end.

(** ** [handleSubmit] *)

(** The handler, for the environment variable [var] that names the backend:
    the two revisions of the page differ in it only.  [try_block] and
    [catch_block] are the bodies of its [try] and [catch]. *)
Definition try_block (var : string) (env : Env) (net : FetchResult)
    (userQuery : jsstring) : Comp unit :=
  let BackendUrl := env !! var in
  response <- fetch net POST (interpolate BackendUrl ++ lit "/ask")
                (Some (JObject [(lit "question", JString userQuery)])) ;;
  match ok response, body response with
  | true, Some stream =>
      read_loop (chunks stream) (ending stream) TextDecoder.new
        (mkLocals [] false)
  | _, _ =>
      throw (mkError (lit "Failed to fetch response: "
                        ++ of_number (status response)
                        ++ lit " " ++ statusText response))
  end.

Definition catch_block (error : JsError) : Comp unit :=
  emit (Console ErrorLevel) ;;
  setMessages (catch_updater error).

Definition handleSubmit_at (var : string) (env : Env) (net : FetchResult)
    : Comp unit :=
  fun st =>
    (emit PreventDefault ;;
     if negb (truthy (trim (input st))) || loading st then ret tt
     else
       let userQuery := input st in
       setInput [] ;;
       setLoading true ;;
       setMessages (fun prevMessages =>
                      prevMessages ++ [mkMessage user userQuery None]) ;;
       setMessages (fun prevMessages =>
                      prevMessages ++ [mkMessage assistant [] None]) ;;
       finally (try_catch (try_block var env net userQuery) catch_block)
               (setLoading false)) st.

(** [frontend/app/page.tsx] *)
Definition handleSubmit : Env -> FetchResult -> Comp unit :=
  handleSubmit_at "NEXT_PUBLIC_API_URL".

(** The earlier revision of the page. *)
Definition handleSubmit_earlier : Env -> FetchResult -> Comp unit :=
  handleSubmit_at "NEXT_PUBLIC_PYTHON_BACKEND_URL".

(** ** The readiness poller *)

(** Whether [checkServerStatus] has returned for good or has a poll under
    way. *)
Inductive Poller : Type := Stopped | Polling.

(** The [try] block of [checkServerStatus] for one reply: whether it ended
    in the [return]. *)
Definition health_attempt (env : Env) (reply : HealthReply) : Comp bool :=
  try_catch
    (let BackendUrl := env !! "NEXT_PUBLIC_BACKEND_URL" in
     emit (Fetch GET (interpolate BackendUrl ++ lit "/health") None) ;;
     match reply with
     | HealthRejects e => throw e
     | HealthResolves response_ok text =>
         match Json.parse text with
         | None => throw (mkError (lit "SyntaxError"))
         | Some data =>
             if response_ok then
               match data with
               | JNull => throw (mkError (lit "TypeError"))
               | _ =>
                   if is_string (get data (lit "status")) (lit "ready") then
                     emit (Console LogLevel) ;;
                     setIsServerReady true ;;
                     ret true
                   else ret false
               end
             else ret false
         end
     end)
    (fun error => emit (Console ErrorLevel) ;; ret false).

(** [checkServerStatus] against the replies the polls get, in order; when
    they run out the poll under way is still waiting for its reply. *)
Fixpoint checkServerStatus (env : Env) (replies : list HealthReply)
    : Comp Poller :=
  match replies with
  | [] =>
      emit (Fetch GET (interpolate (env !! "NEXT_PUBLIC_BACKEND_URL")
                         ++ lit "/health") None) ;;
      ret Polling
  | reply :: later =>
      returned <- health_attempt env reply ;;
      if returned then ret Stopped
      else emit (SetTimeout 2000) ;; checkServerStatus env later
  end.


(** ** The protocol, and the observations the theorems speak about *)

(** The events a protocol line can carry. *)
Inductive Event : Type :=
| Chunk (text : jsstring)
| Error (error : jsstring).

(** [line] is a well-formed event line: the prefix, then the JSON text of an
    object whose [type] and payload are those of [ev]. *)
Definition carries (line : jsstring) (ev : Event) : Prop :=
  exists payload members,
    line = lit "data: " ++ payload /\
    Json.parse payload = Some (JObject members) /\
    match ev with
    | Chunk text =>
        lookup_member (lit "type") members = Some (JString (lit "chunk")) /\
        lookup_member (lit "content") members = Some (JString text)
    | Error error =>
        lookup_member (lit "type") members = Some (JString (lit "error")) /\
        lookup_member (lit "error") members = Some (JString error)
    end.

(** The events a sequence of lines carries, in order; a line that carries
    none is passed over. *)
Inductive events_of : list jsstring -> list Event -> Prop :=
| events_nil : events_of [] []
| events_cons line ev lines evs :
    carries line ev -> events_of lines evs ->
    events_of (line :: lines) (ev :: evs)
| events_skip line lines evs :
    (forall ev, ~ carries line ev) -> events_of lines evs ->
    events_of (line :: lines) evs.

(** The text the events put on the assistant's turn: the chunks up to the
    first error event, then that error's text. *)
Fixpoint streamed_text (evs : list Event) : jsstring :=
  match evs with
  | [] => []
  | Chunk text :: evs' => text ++ streamed_text evs'
  | Error error :: _ => [LF; LF] ++ lit "Error: " ++ error
  end.

Fixpoint has_error (evs : list Event) : bool :=
  match evs with
  | [] => false
  | Chunk _ :: evs' => has_error evs'
  | Error _ :: _ => true
  end.

(** The lines the consumer recovers from each read, the decoder carried from
    one read to the next. *)
Fixpoint lines_per_read (decoder : TextDecoder.t) (reads : list (list Byte.byte))
    : list (list jsstring) :=
  match reads with
  | [] => []
  | value :: rest =>
      let (decoder', chunk) := TextDecoder.decode decoder value in
      lines_of chunk :: lines_per_read decoder' rest
  end.

(** All the lines the consumer sees over a stream. *)
Definition consumed_lines (reads : list (list Byte.byte)) : list jsstring :=
  concat (lines_per_read TextDecoder.new reads).

(** The lines of the stream taken as a whole, however it was cut into
    reads: what the backend sent. *)
Definition protocol_lines (reads : list (list Byte.byte)) : list jsstring :=
  lines_of (snd (TextDecoder.decode TextDecoder.new (concat reads))).

(** A read that stops right after a line feed. *)
Definition ends_line (value : list Byte.byte) : Prop :=
  last value = Some Byte.x0a.

(** The parts of a run. *)
Definition outcome {A} (r : Outcome A * State * list Effect) : Outcome A := fst (fst r).
Definition final {A} (r : Outcome A * State * list Effect) : State := snd (fst r).
Definition trace {A} (r : Outcome A * State * list Effect) : list Effect := snd r.

(** The guard of [handleSubmit] lets the call through. *)
Definition accepted (st : State) : bool :=
  truthy (trim (input st)) && negb (loading st).

Definition is_SetLoading (v : bool) (e : Effect) : bool :=
  match e with
  | SetLoading v' => Bool.eqb v v'
  | _ => false
  end.

Definition is_Console (e : Effect) : bool :=
  match e with Console _ => true | _ => false end.

(** The reply that ends the polling: HTTP success and a body whose [status]
    is the string [ready]. *)
Definition ready (reply : HealthReply) : Prop :=
  exists text members,
    reply = HealthResolves true text /\
    Json.parse text = Some (JObject members) /\
    lookup_member (lit "status") members = Some (JString (lit "ready")).

(** The requests a run sent: method and URL. *)
Definition requests (t : list Effect) : list (Method * jsstring) :=
  flat_map (fun e => match e with
                     | Fetch m url _ => [(m, url)]
                     | _ => []
                     end) t.

(** Text in which an apostrophe stands for a quotation mark, to write JSON
    in examples. *)
Definition quoted (s : string) : list Byte.byte :=
  map (fun b => if Byte.eqb b Byte.x27 then Byte.x22 else b)
      (list_byte_of_string s).

Definition quoted_text (s : string) : jsstring :=
  map Byte.to_N (quoted s).

(** The state in which the [try] block starts: the question and the empty
    assistant message appended, the input cleared, the busy flag up. *)
Definition opened (st : State) : State :=
  mkState ((messages st ++ [mkMessage user (input st) None])
             ++ [mkMessage assistant [] None])
          [] true (isServerReady st).

(** What [handleSubmit] does before the [try] block. *)
Definition opening (st : State) : list Effect :=
  [PreventDefault; SetInput []; SetLoading true;
   SetMessages (messages st ++ [mkMessage user (input st) None]);
   SetMessages ((messages st ++ [mkMessage user (input st) None])
                  ++ [mkMessage assistant [] None])].

(** Every read but the last stops right after a line feed: no line lies
    across two reads. *)
Fixpoint line_aligned (reads : list (list Byte.byte)) : Prop :=
  match reads with
  | [] => True
  | value :: rest =>
      match rest with
      | [] => True
      | _ :: _ => ends_line value /\ line_aligned rest
      end
  end.

(** The decoder never takes a byte below 0x80 for a continuation byte. *)
Definition decoder_ok (d : TextDecoder.t) : Prop :=
  0x80 <= TextDecoder.lower_boundary d.

(** A log whose last message is the open assistant message, after the
    messages [base] that no longer change. *)
Definition log_open (base ms : list Message) : Prop :=
  exists a, ms = base ++ [a] /\ is_assistant a = true.

(** The logs a run gave to the message state, in order. *)
Definition logs (t : list Effect) : list (list Message) :=
  flat_map (fun e => match e with
                     | SetMessages next => [next]
                     | _ => []
                     end) t.

(** What the loops and the [catch] block may do while the assistant message
    stays open after [base]: reads, cancellation, logging, and updates of the
    log that keep it open after [base]. *)
Definition loop_effect (base : list Message) (e : Effect) : Prop :=
  match e with
  | SetMessages next => log_open base next
  | ReaderRead | ReaderCancel | Console _ => True
  | PreventDefault | SetInput _ | SetLoading _ | SetIsServerReady _
  | Fetch _ _ _ | SetTimeout _ => False
  end.

(** The same, and requests: what the [try] block may do. *)
Definition stream_effect (base : list Message) (e : Effect) : Prop :=
  match e with
  | Fetch _ _ _ => True
  | _ => loop_effect base e
  end.

(** A computation that keeps the assistant message open after [base],
    touches no other cell of the state, and has only effects in [P]. *)
Definition keeps (base : list Message) (P : Effect -> Prop) {A} (m : Comp A)
    : Prop :=
  forall st,
    log_open base (messages st) ->
    log_open base (messages (final (m st)))
    /\ input (final (m st)) = input st
    /\ loading (final (m st)) = loading st
    /\ isServerReady (final (m st)) = isServerReady st
    /\ Forall P (trace (m st)).

(** ** Sample inputs *)

(** A page with an empty log, a question typed, nothing in flight. *)
Definition sample_state : State :=
  mkState [] (lit "What is a Certificate of Occupancy?") false true.

(** A successful response whose body delivers [reads] and then ends as
    [close] says. *)
Definition streaming (reads : list (list Byte.byte)) (close : StreamEnd)
    : FetchResult :=
  Resolves (mkResponse true 200 (lit "OK") (Some (mkStream reads close))).

(** A protocol line as bytes: the text and a line feed. *)
Definition line_bytes (s : string) : list Byte.byte := quoted s ++ [Byte.x0a].

(** The URL the readiness poller asks. *)
Definition health_url (env : Env) : jsstring :=
  interpolate (env !! "NEXT_PUBLIC_BACKEND_URL") ++ lit "/health".

(** A trace without its console entries. *)
Definition quiet (t : list Effect) : list Effect :=
  List.filter (fun e => negb (is_Console e)) t.

(** The environment of the README's [example.env]: the one variable it
    documents for the frontend. *)
Definition documented_env : Env :=
  {[ "NEXT_PUBLIC_BACKEND_URL" := lit "http://localhost:8000" ]}.

(** The ways an updater may change the log: not at all, by an append, or by
    rewriting its last element when that is an assistant message. *)
Inductive log_step : list Message -> list Message -> Prop :=
| step_same prev : log_step prev prev
| step_append prev m : log_step prev (prev ++ [m])
| step_rewrite base a a' :
    is_assistant a = true -> is_assistant a' = true ->
    log_step (base ++ [a]) (base ++ [a']).

(** ** Further observations *)

(** The texts the events put on the assistant's turn one after the other,
    each with whether it is flagged as an error: one per chunk, the
    accumulator so far; one for the first error event, which is the last. *)
Fixpoint shown (acc : jsstring) (evs : list Event) : list (jsstring * bool) :=
  match evs with
  | [] => []
  | Chunk text :: evs' => (acc ++ text, false) :: shown (acc ++ text) evs'
  | Error error :: _ => [(acc ++ [LF; LF] ++ lit "Error: " ++ error, true)]
  end.

(** The log that shows [text] on the open message [a] after [base]. *)
Definition showing (base : list Message) (a : Message)
    (entry : jsstring * bool) : list Message :=
  base ++ [mkMessage (role a) (fst entry)
             (if snd entry then Some true else isError a)].

(** How many events the loop acts on: those up to and including the first
    error event. *)
Fixpoint events_read (evs : list Event) : nat :=
  match evs with
  | [] => 0
  | Chunk _ :: evs' => S (events_read evs')
  | Error _ :: _ => 1
  end.

(** The read that brings the first error event, counted from 0, given the
    events each read carries. *)
Fixpoint first_error_read (evss : list (list Event)) : option nat :=
  match evss with
  | [] => None
  | evs :: rest =>
      if has_error evs then Some 0%nat else option_map S (first_error_read rest)
  end.

(** What a run did with the reader. *)
Definition reader_ops (t : list Effect) : list Effect :=
  List.filter (fun e => match e with
                        | ReaderRead | ReaderCancel => true
                        | _ => false
                        end) t.

(** The requests a run sent, whole. *)
Definition sent (t : list Effect) : list Effect :=
  List.filter (fun e => match e with Fetch _ _ _ => true | _ => false end) t.

(** The text the loop gets from each read: [decoder.decode(value,
    {stream: true})], the decoder carried along. *)
Fixpoint chunk_texts (decoder : TextDecoder.t) (reads : list (list Byte.byte))
    : list jsstring :=
  match reads with
  | [] => []
  | value :: rest =>
      let (decoder', chunk) := TextDecoder.decode decoder value in
      chunk :: chunk_texts decoder' rest
  end.

(** The text the [catch] block puts on the assistant's turn. *)
Definition failure_text (e : JsError) : jsstring :=
  lit "Error: Could not stream response. Details: " ++ message e.

(** The request of a submission. *)
Definition ask_request (var : string) (env : Env) (userQuery : jsstring) : Effect :=
  Fetch POST (interpolate (env !! var) ++ lit "/ask")
        (Some (JObject [(lit "question", JString userQuery)])).

(** ** The other handlers *)

(** An entry of [suggestionCards]. *)
Record Suggestion : Type := mkSuggestion {
  title : jsstring;
  subtitle : jsstring
}.

Definition suggestionCards : list Suggestion :=
  [mkSuggestion (lit "What are the legal requirements")
                (lit "for company registration in Nigeria?");
   mkSuggestion (lit "How do I obtain") (lit "a Certificate of Occupancy?");
   mkSuggestion (lit "What are the penalties")
                (lit "for tax evasion under Nigerian law?");
   mkSuggestion (lit "Explain the process")
                (lit "of property acquisition in Nigeria")].

Definition handleSuggestionClick (suggestion : Suggestion) : Comp unit :=
  let fullQuestion := title suggestion ++ lit " " ++ subtitle suggestion in
  setInput fullQuestion.

(** The input's [onChange], given [e.target.value]. *)
Definition onChange (value : jsstring) : Comp unit := setInput value.

(** ** What [Home] returns *)

(** The handlers the markup refers to. *)
Inductive Handler : Type :=
| OnSubmit                                   (* handleSubmit *)
| OnSuggestionClick (suggestion : Suggestion)  (* handleSuggestionClick *)
| OnInputChange.                             (* onChange *)

(** The value of a JSX attribute.  A [className] is the list of the entries
    of [styles] its template joins with spaces, the empty string among them
    when the template has one. *)
Inductive AttrValue : Type :=
| AString (s : string)
| AText (s : jsstring)
| ABool (b : bool)
| ANumber (n : nat)
| AClass (names : list string)
| AHandler (h : Handler)
| ARef.

(** An element with its attributes and children, or a text. *)
Inductive Node : Type :=
| Element (tag : string) (attrs : list (string * AttrValue)) (children : list Node)
| Text (s : jsstring).

Definition className (names : list string) : string * AttrValue :=
  ("className"%string, AClass names).

(** The truthiness of [msg.isError]. *)
Definition flagged (msg : Message) : bool :=
  match isError msg with
  | Some true => true
  | _ => false
  end.

(** The element [messages.map] makes of a message; both revisions have it. *)
Definition message_view (index : nat) (msg : Message) : Node :=
  Element "div"
    [("key"%string, ANumber index);
     className ["message"%string;
                match role msg with
                | user => "userMessage"
                | assistant => "assistantMessage"
                end%string]]
    [Element "div"
       [className ["messageContent"%string;
                   (if flagged msg then "error" else "")%string]]
       [Element "p" [className ["messageText"%string]] [Text (content msg)]]].

Definition suggestion_view (index : nat) (suggestion : Suggestion) : Node :=
  Element "div"
    [("key"%string, ANumber index);
     className ["suggestionCard"%string];
     ("onClick"%string, AHandler (OnSuggestionClick suggestion))]
    [Element "h4" [] [Text (title suggestion)];
     Element "p" [] [Text (subtitle suggestion)]].

Definition loading_dots : Node :=
  Element "div" [className ["message"; "assistantMessage"]%string]
    [Element "div" [className ["messageContent"%string]]
       [Element "div" [className ["loadingDots"%string]]
          [Element "div" [className ["loadingDot"%string]] [];
           Element "div" [className ["loadingDot"%string]] [];
           Element "div" [className ["loadingDot"%string]] []]]].

Definition empty_state : Node :=
  Element "div" [className ["emptyState"%string]]
    [Element "div" [className ["welcomeText"%string]]
       [Element "h1" [className ["welcomeTitle"%string]] [Text (lit "Hello there!")];
        Element "p" [className ["welcomeSubtitle"%string]]
          [Text (lit "What Nigerian laws would you love to know today?")]];
     Element "div" [className ["suggestionCards"%string]]
       (imap suggestion_view suggestionCards)].

Definition input_form (st : State) : Node :=
  Element "form" [className ["inputForm"%string];
                  ("onSubmit"%string, AHandler OnSubmit)]
    [Element "div" [className ["inputContainer"%string]]
       [Element "input"
          [("type", AString "text");
           ("value", AText (input st));
           ("onChange", AHandler OnInputChange);
           ("placeholder", AString "Ask a question about Nigerian Laws...");
           className ["inputField"%string];
           ("disabled", ABool (loading st))]%string
          [];
        Element "div" [className ["inputActions"%string]]
          [Element "button"
             [("type", AString "submit");
              className ["sendButton"%string];
              ("disabled", ABool (loading st || negb (truthy (trim (input st)))))]%string
             [Element "svg"
                [className ["sendIcon"%string];
                 ("fill", AString "none");
                 ("stroke", AString "currentColor");
                 ("viewBox", AString "0 0 24 24")]%string
                [Element "path"
                   [("strokeLinecap", AString "round");
                    ("strokeLinejoin", AString "round");
                    ("strokeWidth", ANumber 2);
                    ("d", AString "M12 19l9 2-9-18-9 18 9-2zm0 0v-8")]%string
                   []]]]]].

Definition credit : Node :=
  Element "div" [className ["name"%string]]
    [Element "p" []
       [Text (lit "Developed by ");
        Element "span" []
          [Element "a"
             [("href", AString "https://www.linkedin.com/in/franklin-n/");
              ("target", AString "_blank")]%string
             [Text (lit "Franklin")]]]].

Definition chat_box (st : State) : Node :=
  Element "div" [className ["chatBox"%string]; ("ref"%string, ARef)]
    (if Nat.eqb (length (messages st)) 0 then [empty_state]
     else imap message_view (messages st)
            ++ (if loading st then [loading_dots] else [])).

(** The [return] of [Home] in [frontend/app/page.tsx]: the waiting screen
    until the backend is ready, the chat after. *)
Definition render (st : State) : Node :=
  if negb (isServerReady st) then
    Element "div" [className ["container"%string]]
      [Element "div" [className ["loadingContainer"%string]]
         [Element "p" [className ["loadingText"%string]]
            [Text (lit "Initializing Nigerian Laws AI Assistant...")];
          Element "div" [className ["spinner"%string]] []]]
  else
    Element "div" [className ["container"%string]]
      [chat_box st; input_form st; credit].

Definition chat_box_earlier (st : State) : Node :=
  Element "div" [className ["chatBox"%string]; ("ref"%string, ARef)]
    ((if Nat.eqb (length (messages st)) 0
      then [Element "div" [className ["emptyState"%string]]
              [Text (lit "Welcome! Ask me anything about Nigerian laws.")]]
      else [])
       ++ imap message_view (messages st)
       ++ (if loading st
           then [Element "div" [className ["message"; "assistantMessage"]%string]
                   [Element "div" [className ["messageContent"%string]]
                      [Element "p" [] [Text (lit "Thinking...")]]]]
           else [])).

(** The [return] of [Home] in the earlier revision of the page: no waiting
    screen, no suggestions, a button that only the busy flag disables. *)
Definition render_earlier (st : State) : Node :=
  Element "div" [className ["container"%string]]
    [Element "h1" [className ["header"%string]]
       [Text (lit "Nigerian Laws AI Assistant")];
     chat_box_earlier st;
     Element "form" [className ["inputForm"%string];
                     ("onSubmit"%string, AHandler OnSubmit)]
       [Element "input"
          [("type", AString "text");
           ("value", AText (input st));
           ("onChange", AHandler OnInputChange);
           ("placeholder", AString "Ask about Nigerian laws...");
           className ["inputField"%string];
           ("disabled", ABool (loading st))]%string
          [];
        Element "button"
          [("type", AString "submit");
           className ["sendButton"%string];
           ("disabled", ABool (loading st))]%string
          [Text (lit "Send")]]].

(** ** Looking into a view *)

(** A node and all that is under it, in document order. *)
Fixpoint descendants (n : Node) : list Node :=
  n :: match n with
       | Element _ _ children => flat_map descendants children
       | Text _ => []
       end.

Definition tag_is (t : string) (n : Node) : bool :=
  match n with
  | Element tag _ _ => String.eqb tag t
  | Text _ => false
  end.

Fixpoint assoc (name : string) (attrs : list (string * AttrValue))
    : option AttrValue :=
  match attrs with
  | [] => None
  | (k, v) :: rest => if String.eqb k name then Some v else assoc name rest
  end.

Definition attr (name : string) (n : Node) : option AttrValue :=
  match n with
  | Element _ attrs _ => assoc name attrs
  | Text _ => None
  end.

Definition has_class (c : string) (n : Node) : bool :=
  match attr "className" n with
  | Some (AClass names) => existsb (String.eqb c) names
  | _ => false
  end.

(** The handlers a node itself carries. *)
Definition own_handlers (n : Node) : list Handler :=
  match n with
  | Element _ attrs _ =>
      flat_map (fun kv => match snd kv with
                          | AHandler h => [h]
                          | _ => []
                          end) attrs
  | Text _ => []
  end.

(** All the handlers of a view: what the user can set off. *)
Definition handlers (view : Node) : list Handler :=
  flat_map own_handlers (descendants view).

(** The elements of a view picked by [p], in document order. *)
Definition select (p : Node -> bool) (view : Node) : list Node :=
  List.filter p (descendants view).

(** The text under a node. *)
Definition text_under (n : Node) : jsstring :=
  flat_map (fun d => match d with Text s => s | Element _ _ _ => [] end)
           (descendants n).

(** What [f] says of the elements of a list of nodes picked by [p]. *)
Definition gather {B} (p : Node -> bool) (f : Node -> B) (n : Node) : list B :=
  if p n then [f n] else [].

(** A message bubble: an element made by [message_view]. *)
Definition is_bubble (n : Node) : bool :=
  has_class "message" n
  && match attr "key" n with Some _ => true | None => false end.

(** What a bubble shows: whose it is, whether it is styled as an error, its
    text. *)
Definition bubble_shows (n : Node) : Role * bool * jsstring :=
  (if has_class "userMessage" n then user else assistant,
   existsb (has_class "error") (descendants n),
   text_under n).

(** * Properties *)

(** ** Strings *)

Lemma startsWith_app (p r : jsstring) : startsWith (p ++ r) p = true.
Proof.
  induction p as [|c p IH]; simpl; [reflexivity|].
  rewrite N.eqb_refl. exact IH.
Qed.

Lemma startsWith_inv (p s : jsstring) :
  startsWith s p = true -> exists r, s = p ++ r.
Proof.
  revert s. induction p as [|c p IH]; intros s H.
  - exists s. reflexivity.
  - destruct s as [|d s]; simpl in H; [discriminate|].
    apply andb_prop in H as [Hc Hs]. apply N.eqb_eq in Hc. subst d.
    destruct (IH _ Hs) as [r ->]. exists r. reflexivity.
Qed.

Lemma substring_data (payload : jsstring) :
  substring 6 (lit "data: " ++ payload) = payload.
Proof. reflexivity. Qed.

Lemma trimStart_white (s : jsstring) :
  Forall (fun c => is_white_space c = true) s -> trimStart s = [].
Proof.
  induction 1 as [|c s Hc _ IH]; simpl; [reflexivity|].
  rewrite Hc. exact IH.
Qed.

Lemma trim_white (s : jsstring) :
  Forall (fun c => is_white_space c = true) s -> trim s = [].
Proof.
  intros H. unfold trim, trimEnd. rewrite (trimStart_white s H). reflexivity.
Qed.

(** ** One line *)

Lemma is_string_refl (s : jsstring) : is_string (Some (JString s)) s = true.
Proof. simpl. apply bool_decide_eq_true_2. reflexivity. Qed.

Lemma on_line_chunk line text loc st :
  carries line (Chunk text) ->
  on_line line loc st =
    (Returns (mkLocals (accumulatedContent loc ++ text) (cancelled loc), Next),
     mkState (chunk_updater (accumulatedContent loc ++ text) (messages st))
             (input st) (loading st) (isServerReady st),
     [SetMessages (chunk_updater (accumulatedContent loc ++ text) (messages st))]).
Proof.
  intros (payload & members & -> & Hparse & Htype & Hcontent).
  unfold on_line.
  rewrite startsWith_app, substring_data, Hparse.
  cbn [typeof JsType_eqb andb negb get].
  rewrite Htype, Hcontent, is_string_refl.
  reflexivity.
Qed.

Lemma on_line_error line error loc st :
  carries line (Error error) ->
  on_line line loc st =
    (Returns (mkLocals (accumulatedContent loc) true, Break),
     mkState (error_updater (accumulatedContent loc) error (messages st))
             (input st) (loading st) (isServerReady st),
     [Console ErrorLevel;
      SetMessages (error_updater (accumulatedContent loc) error (messages st));
      ReaderCancel]).
Proof.
  intros (payload & members & -> & Hparse & Htype & Herror).
  unfold on_line.
  rewrite startsWith_app, substring_data, Hparse.
  cbn [typeof JsType_eqb andb negb get].
  rewrite Htype, Herror, is_string_refl.
  replace (is_string (Some (JString (lit "error"))) (lit "chunk")) with false
    by reflexivity.
  reflexivity.
Qed.

Lemma is_string_true v s : is_string v s = true -> v = Some (JString s).
Proof.
  destruct v as [[]|]; simpl; try discriminate.
  intros H. apply bool_decide_eq_true_1 in H. subst. reflexivity.
Qed.

Lemma on_line_other_prefix line loc st :
  startsWith line (lit "data: ") = false ->
  on_line line loc st = (Returns (loc, Next), st, []).
Proof. intros H. unfold on_line. rewrite H. reflexivity. Qed.

Lemma on_line_inert line loc st :
  (forall ev, ~ carries line ev) ->
  exists t, on_line line loc st = (Returns (loc, Next), st, t)
            /\ Forall (fun e => is_Console e = true) t.
Proof.
  intros Hnone.
  destruct (startsWith line (lit "data: ")) eqn:Hprefix.
  2:{ exists []. split; [apply on_line_other_prefix; exact Hprefix | constructor]. }
  apply startsWith_inv in Hprefix as [payload ->].
  unfold on_line. rewrite startsWith_app, substring_data.
  destruct (Json.parse payload) as [parsed|] eqn:Hparse.
  2:{ exists [Console ErrorLevel]. split; [reflexivity | repeat constructor]. }
  destruct parsed as [| b | lexeme | s | items | members];
    try (exists [Console WarnLevel]; split; [reflexivity | repeat constructor]).
  { exists []. split; [reflexivity | constructor]. }
  cbn [typeof JsType_eqb andb negb get].
  destruct (is_string (lookup_member (lit "type") members) (lit "chunk")) eqn:Hchunk.
  - apply is_string_true in Hchunk.
    destruct (lookup_member (lit "content") members) as [[| | | text | |]|] eqn:Hcontent;
      try (rewrite Hchunk; exists []; split; [reflexivity | constructor]).
    exfalso. apply (Hnone (Chunk text)). exists payload, members. auto.
  - assert (Hrest :
        exists t,
          match is_string (lookup_member (lit "type") members) (lit "error"),
                lookup_member (lit "error") members with
          | true, Some (JString error) =>
              emit (Console ErrorLevel) ;;
              setMessages (error_updater (accumulatedContent loc) error) ;;
              emit ReaderCancel ;;
              ret (mkLocals (accumulatedContent loc) true, Break)
          | _, _ => ret (loc, Next)
          end st = (Returns (loc, Next), st, t)
          /\ Forall (fun e => is_Console e = true) t).
    { destruct (is_string (lookup_member (lit "type") members) (lit "error")) eqn:Herr.
      - apply is_string_true in Herr.
        destruct (lookup_member (lit "error") members) as [[| | | error | |]|] eqn:Herror;
          try (exists []; split; [reflexivity | constructor]).
        exfalso. apply (Hnone (Error error)). exists payload, members. auto.
      - exists []. split; [|constructor].
        destruct (lookup_member (lit "error") members) as [[]|]; reflexivity. }
    destruct (lookup_member (lit "content") members) as [[]|]; exact Hrest.
Qed.

Lemma other_prefix_carries_nothing line :
  startsWith line (lit "data: ") = false -> forall ev, ~ carries line ev.
Proof.
  intros H ev (payload & members & -> & _). rewrite startsWith_app in H.
  discriminate H.
Qed.

(** ** Sequencing *)

Lemma bind_returns {A B} (m : Comp A) (k : A -> Comp B) s a s1 t1 :
  m s = (Returns a, s1, t1) ->
  bind m k s = (outcome (k a s1), final (k a s1), t1 ++ trace (k a s1)).
Proof.
  intros H. unfold bind. rewrite H.
  destruct (k a s1) as [[o s2] t2]. reflexivity.
Qed.

Lemma run_eta {A} (r : Outcome A * State * list Effect) :
  r = (outcome r, final r, trace r).
Proof. destruct r as [[o s] t]. reflexivity. Qed.

(** ** The updaters on a log that ends with an assistant message *)

Lemma last_assistant base (a : Message) : last (base ++ [a]) = Some a.
Proof. apply last_snoc. Qed.

Lemma slice_snoc base (a : Message) : slice_0_m1 (base ++ [a]) = base.
Proof. unfold slice_0_m1. apply removelast_last. Qed.

Lemma chunk_updater_open acc base a :
  is_assistant a = true ->
  chunk_updater acc (base ++ [a]) = base ++ [mkMessage (role a) acc (isError a)].
Proof.
  intros Ha. unfold chunk_updater.
  rewrite last_assistant, Ha, slice_snoc. reflexivity.
Qed.

Lemma error_updater_open acc error base a :
  is_assistant a = true ->
  error_updater acc error (base ++ [a]) =
    base ++ [mkMessage (role a) (acc ++ [LF; LF] ++ lit "Error: " ++ error) (Some true)].
Proof.
  intros Ha. unfold error_updater.
  rewrite last_assistant, Ha, slice_snoc. reflexivity.
Qed.

Lemma catch_updater_open e base a :
  is_assistant a = true ->
  catch_updater e (base ++ [a]) =
    base ++ [mkMessage (role a)
               (lit "Error: Could not stream response. Details: " ++ message e)
               (Some true)].
Proof.
  intros Ha. unfold catch_updater.
  rewrite last_assistant, Ha, slice_snoc. reflexivity.
Qed.

(** ** The loops, by the events the lines carry *)

Lemma streamed_text_app e1 e2 :
  streamed_text (e1 ++ e2) =
    if has_error e1 then streamed_text e1 else streamed_text e1 ++ streamed_text e2.
Proof.
  induction e1 as [|[text|error] e1 IH]; simpl; [reflexivity| |reflexivity].
  rewrite IH. destruct (has_error e1); [reflexivity|].
  rewrite <- app_assoc. reflexivity.
Qed.

Lemma has_error_app e1 e2 :
  has_error (e1 ++ e2) = has_error e1 || has_error e2.
Proof.
  induction e1 as [|[text|error] e1 IH]; simpl; auto.
Qed.

Lemma has_error_chunks texts : has_error (map Chunk texts) = false.
Proof. induction texts; simpl; auto. Qed.

Lemma streamed_text_chunks texts : streamed_text (map Chunk texts) = concat texts.
Proof. induction texts as [|c texts IH]; simpl; [reflexivity|]. rewrite IH. reflexivity. Qed.

Lemma events_of_app_inv l1 l2 evs :
  events_of (l1 ++ l2) evs ->
  exists e1 e2, evs = e1 ++ e2 /\ events_of l1 e1 /\ events_of l2 e2.
Proof.
  revert evs. induction l1 as [|line l1 IH]; intros evs H.
  - exists [], evs. repeat split; [constructor | exact H].
  - simpl in H. inversion H as [| ? ev ? evs' Hc Hrest | ? ? ? Hn Hrest]; subst.
    + destruct (IH _ Hrest) as (e1 & e2 & -> & H1 & H2).
      exists (ev :: e1), e2. repeat split; [constructor; assumption | exact H2].
    + destruct (IH _ Hrest) as (e1 & e2 & -> & H1 & H2).
      exists e1, e2. repeat split; [apply events_skip; assumption | exact H2].
Qed.

Lemma for_lines_cons line rest loc st :
  for_lines (line :: rest) loc st =
    bind (on_line line loc)
         (fun r => match snd r with
                   | Break => ret (fst r)
                   | Next => for_lines rest (fst r)
                   end) st.
Proof. reflexivity. Qed.

Lemma for_lines_events lines evs :
  events_of lines evs ->
  forall loc st base a,
    messages st = base ++ [a] -> is_assistant a = true ->
    content a = accumulatedContent loc ->
    exists loc',
      outcome (for_lines lines loc st) = Returns loc'
      /\ cancelled loc' = has_error evs || cancelled loc
      /\ (has_error evs = false ->
          accumulatedContent loc' = accumulatedContent loc ++ streamed_text evs)
      /\ final (for_lines lines loc st) =
           mkState (base ++ [mkMessage (role a)
                               (accumulatedContent loc ++ streamed_text evs)
                               (if has_error evs then Some true else isError a)])
                   (input st) (loading st) (isServerReady st)
      /\ (has_error evs = true ->
          exists pre,
            trace (for_lines lines loc st) =
              pre ++ [Console ErrorLevel;
                      SetMessages (messages (final (for_lines lines loc st)));
                      ReaderCancel]).
Proof.
  induction 1 as [| line ev lines evs Hc Hrest IH | line lines evs Hn Hrest IH];
    intros loc st base a Hlog Ha Hacc.
  - exists loc. simpl. repeat split; try (intros; discriminate).
    + rewrite app_nil_r. reflexivity.
    + rewrite app_nil_r, <- Hacc. destruct st, a; simpl in *. subst. reflexivity.
  - rewrite for_lines_cons. destruct ev as [text|error].
    + erewrite bind_returns by (apply on_line_chunk; exact Hc).
      cbn [fst snd]. rewrite Hlog, chunk_updater_open by exact Ha.
      set (a' := mkMessage (role a) (accumulatedContent loc ++ text) (isError a)).
      set (st' := mkState _ _ _ _).
      set (loc1 := mkLocals _ _).
      destruct (IH loc1 st' base a' eq_refl Ha eq_refl)
        as (loc' & Ho & Hcan & Htext & Hfin & Htr).
      exists loc'. cbn [outcome final trace fst snd has_error streamed_text].
      split; [exact Ho|]. split; [exact Hcan|].
      split; [intros Hne; rewrite (Htext Hne); subst loc1; simpl;
              rewrite <- app_assoc; reflexivity|].
      split.
      * rewrite Hfin. subst st' a' loc1. simpl. rewrite <- app_assoc. reflexivity.
      * intros Hne. destruct (Htr Hne) as [pre Hpre].
        exists (SetMessages (base ++ [a']) :: pre). rewrite Hpre. reflexivity.
    + erewrite bind_returns by (apply on_line_error; exact Hc).
      cbn [fst snd]. rewrite Hlog, error_updater_open by exact Ha.
      exists (mkLocals (accumulatedContent loc) true).
      cbn [outcome final trace fst snd has_error streamed_text ret cancelled].
      repeat split; try (intros; discriminate).
      intros _. exists []. reflexivity.
  - rewrite for_lines_cons.
    destruct (on_line_inert line loc st Hn) as (t & Hrun & Ht).
    erewrite bind_returns by exact Hrun. cbn [fst snd].
    destruct (IH loc st base a Hlog Ha Hacc) as (loc' & Ho & Hcan & Htext & Hfin & Htr).
    exists loc'. cbn [outcome final trace fst snd].
    repeat split; try assumption.
    intros Hne. destruct (Htr Hne) as [pre Hpre].
    exists (t ++ pre). rewrite Hpre, <- app_assoc. reflexivity.
Qed.

Lemma read_loop_cancelled reads ending decoder loc st :
  cancelled loc = true ->
  read_loop reads ending decoder loc st =
    (Returns tt, st, [ReaderRead; Console LogLevel]).
Proof.
  intros H. destruct reads; simpl; unfold bind, emit; rewrite H; reflexivity.
Qed.

Lemma read_loop_drained ending decoder loc st :
  cancelled loc = false ->
  read_loop [] ending decoder loc st =
    match ending with
    | Closes => (Returns tt, st, [ReaderRead; Console LogLevel])
    | Errors e => (Throws e, st, [ReaderRead])
    end.
Proof.
  intros H. simpl. unfold bind, emit. rewrite H. destruct ending; reflexivity.
Qed.

Lemma read_loop_cons value rest ending decoder loc st loc' :
  cancelled loc = false ->
  let chunk := snd (TextDecoder.decode decoder value) in
  let decoder' := fst (TextDecoder.decode decoder value) in
  let r1 := for_lines (lines_of chunk) loc st in
  outcome r1 = Returns loc' ->
  let r2 := read_loop rest ending decoder' loc' (final r1) in
  read_loop (value :: rest) ending decoder loc st =
    (outcome r2, final r2, ReaderRead :: trace r1 ++ trace r2).
Proof.
  intros H chunk decoder' r1 Ho r2.
  cbn [read_loop]. unfold bind at 1. unfold emit at 1. rewrite H.
  subst chunk decoder' r1 r2.
  destruct (TextDecoder.decode decoder value) as [d c]. cbn [fst snd] in *.
  rewrite (run_eta (for_lines (lines_of c) loc st)) in Ho |- *.
  cbn [outcome fst snd] in Ho.
  erewrite bind_returns.
  2:{ rewrite (run_eta (for_lines (lines_of c) loc st)). rewrite Ho. reflexivity. }
  reflexivity.
Qed.

Lemma read_loop_events reads :
  forall ending decoder loc st base a evs,
    messages st = base ++ [a] -> is_assistant a = true ->
    content a = accumulatedContent loc -> cancelled loc = false ->
    events_of (concat (lines_per_read decoder reads)) evs ->
    has_error evs = true \/ ending = Closes ->
    let r := read_loop reads ending decoder loc st in
    outcome r = Returns tt
    /\ final r =
         mkState (base ++ [mkMessage (role a)
                             (accumulatedContent loc ++ streamed_text evs)
                             (if has_error evs then Some true else isError a)])
                 (input st) (loading st) (isServerReady st)
    /\ (has_error evs = true ->
        exists pre,
          trace r = pre ++ [Console ErrorLevel; SetMessages (messages (final r));
                            ReaderCancel; ReaderRead; Console LogLevel]).
Proof.
  induction reads as [|value rest IH];
    intros ending decoder loc st base a evs Hlog Ha Hacc Hcan Hev Hend r; subst r.
  - simpl in Hev. inversion Hev; subst. simpl in Hend.
    destruct Hend as [Hend | ->]; [discriminate|].
    rewrite read_loop_drained by exact Hcan. cbn [outcome final trace fst snd].
    simpl. rewrite app_nil_r, <- Hacc.
    repeat split; [|intros; discriminate].
    destruct st, a; simpl in *. subst. reflexivity.
  - cbn [lines_per_read] in Hev.
    destruct (TextDecoder.decode decoder value) as [decoder' chunk] eqn:Hdec.
    cbn [concat] in Hev.
    apply events_of_app_inv in Hev as (e1 & e2 & -> & H1 & H2).
    destruct (for_lines_events _ _ H1 loc st base a Hlog Ha Hacc)
      as (loc' & Ho & Hcan' & Htext & Hfin & Htr).
    rewrite Hcan, orb_false_r in Hcan'.
    pose proof (read_loop_cons value rest ending decoder loc st loc' Hcan) as Hstep.
    cbn zeta in Hstep. rewrite Hdec in Hstep. cbn [fst snd] in Hstep.
    rewrite (Hstep Ho). clear Hstep.
    cbn [outcome final trace fst snd].
    rewrite streamed_text_app, has_error_app.
    destruct (has_error e1) eqn:He1.
    + rewrite read_loop_cancelled by exact Hcan'.
      cbn [outcome final trace fst snd orb].
      repeat split; [exact Hfin|].
      intros _. destruct (Htr eq_refl) as [pre Hpre].
      exists (ReaderRead :: pre). rewrite Hpre, <- app_assoc. reflexivity.
    + cbn [orb]. rewrite has_error_app, He1 in Hend. cbn [orb] in Hend.
      set (a' := mkMessage (role a) (accumulatedContent loc ++ streamed_text e1) (isError a)).
      destruct (IH ending decoder' loc' (final (for_lines (lines_of chunk) loc st))
                   base a' e2) as (Ho2 & Hfin2 & Htr2); try assumption.
      * rewrite Hfin. reflexivity.
      * subst a'. simpl. symmetry. apply Htext. reflexivity.
      * split; [exact Ho2|]. split.
        -- rewrite Hfin2, Hfin. subst a'. cbn [role isError input loading isServerReady].
           rewrite (Htext eq_refl), <- app_assoc. reflexivity.
        -- intros Hne. destruct (Htr2 Hne) as [pre Hpre].
           exists (ReaderRead :: trace (for_lines (lines_of chunk) loc st) ++ pre).
           rewrite Hpre. cbn [app]. rewrite <- app_assoc. reflexivity.
Qed.

(** ** [handleSubmit], unfolded *)

Lemma handleSubmit_rejected var env net st :
  accepted st = false ->
  handleSubmit_at var env net st = (Returns tt, st, [PreventDefault]).
Proof.
  intros H. unfold handleSubmit_at, accepted in *.
  unfold bind at 1. unfold emit at 1.
  replace (negb (truthy (trim (input st))) || loading st) with true.
  - reflexivity.
  - destruct (truthy (trim (input st))), (loading st); simpl in *; congruence.
Qed.

Lemma handleSubmit_accepted var env net st :
  accepted st = true ->
  let r := try_catch (try_block var env net (input st)) catch_block (opened st) in
  handleSubmit_at var env net st =
    (outcome r,
     mkState (messages (final r)) (input (final r)) false (isServerReady (final r)),
     opening st ++ trace r ++ [SetLoading false]).
Proof.
  intros H r. unfold handleSubmit_at, accepted in *.
  apply andb_prop in H as [Hin Hld]. apply negb_true_iff in Hld.
  unfold bind at 1. unfold emit at 1. rewrite Hin, Hld. cbn [negb orb].
  unfold bind, setInput, setLoading, setMessages, finally.
  cbn [messages input loading isServerReady].
  fold (opened st). fold r.
  destruct r as [[o s] t]. reflexivity.
Qed.

Lemma try_block_streaming var env status text reads close userQuery st :
  let net := Resolves (mkResponse true status text (Some (mkStream reads close))) in
  let r := read_loop reads close TextDecoder.new (mkLocals [] false) st in
  try_block var env net userQuery st =
    (outcome r, final r,
     Fetch POST (interpolate (env !! var) ++ lit "/ask")
           (Some (JObject [(lit "question", JString userQuery)])) :: trace r).
Proof.
  intros net r. unfold try_block, fetch, net.
  unfold bind, emit, ret. cbn [ok body chunks ending].
  fold r. destruct r as [[o s] t]. reflexivity.
Qed.

Lemma try_catch_returns {A} (m : Comp A) h s :
  (exists a, outcome (m s) = Returns a) -> try_catch m h s = m s.
Proof.
  intros [a H]. unfold try_catch.
  destruct (m s) as [[o s1] t1]. cbn [outcome fst] in H. rewrite H. reflexivity.
Qed.

(** ** Lines and reads *)

Lemma split_nonempty sep s : split sep s <> [].
Proof.
  destruct s as [|c s]; simpl; [discriminate|].
  destruct (c =? sep); [discriminate|].
  destruct (split sep s); discriminate.
Qed.

Lemma split_app_sep sep a b :
  split sep (a ++ sep :: b) = split sep a ++ split sep b.
Proof.
  induction a as [|c a IH]; simpl.
  - rewrite N.eqb_refl. reflexivity.
  - destruct (c =? sep); rewrite IH; [reflexivity|].
    destruct (split sep a) as [|l ls] eqn:E; [|reflexivity].
    exfalso. exact (split_nonempty _ _ E).
Qed.

Lemma lines_of_app t1 t2 :
  last t1 = Some LF -> lines_of (t1 ++ t2) = lines_of t1 ++ lines_of t2.
Proof.
  intros H. apply last_Some in H as [t ->].
  unfold lines_of. rewrite <- app_assoc. cbn [app].
  rewrite !split_app_sep, !List.filter_app. cbn [split List.filter].
  replace (nonempty (trim [])) with false by reflexivity.
  rewrite app_nil_r. reflexivity.
Qed.

Lemma decode_app d a b :
  TextDecoder.decode d (a ++ b) =
    (fst (TextDecoder.decode (fst (TextDecoder.decode d a)) b),
     snd (TextDecoder.decode d a)
       ++ snd (TextDecoder.decode (fst (TextDecoder.decode d a)) b)).
Proof.
  revert d. induction a as [|x a IH]; intros d; cbn [app TextDecoder.decode].
  - cbn [fst snd app]. destruct (TextDecoder.decode d b); reflexivity.
  - destruct (TextDecoder.handler d (Byte.to_N x)) as [d1 cps].
    destruct (TextDecoder.serialize d1 cps) as [d2 out].
    rewrite IH. destruct (TextDecoder.decode d2 a) as [d3 out'].
    cbn [fst snd]. rewrite app_assoc. reflexivity.
Qed.

Lemma serialize_boundary d cps :
  TextDecoder.lower_boundary (fst (TextDecoder.serialize d cps)) =
    TextDecoder.lower_boundary d.
Proof.
  revert d. induction cps as [|cp cps IH]; intros d; cbn [TextDecoder.serialize];
    [reflexivity|].
  match goal with
  | |- context [TextDecoder.serialize ?d1 cps] =>
      specialize (IH d1); destruct (TextDecoder.serialize d1 cps) as [d2 out]
  end.
  destruct (negb (TextDecoder.bom_seen d) && (cp =? 65279)); exact IH.
Qed.

Lemma lead_ok d b : decoder_ok d -> decoder_ok (fst (TextDecoder.lead d b)).
Proof.
  unfold decoder_ok, TextDecoder.lead. intros H.
  repeat match goal with
         | |- context [if ?c then _ else _] => destruct c
         end; cbn; try exact H; try (intros E; discriminate E).
Qed.

Lemma handler_ok d b : decoder_ok d -> decoder_ok (fst (TextDecoder.handler d b)).
Proof.
  intros H. unfold TextDecoder.handler.
  destruct (TextDecoder.bytes_needed d =? 0); [apply lead_ok; exact H|].
  destruct (negb _).
  - pose proof (lead_ok (TextDecoder.reset d) b) as Hl.
    destruct (TextDecoder.lead (TextDecoder.reset d) b) as [d' out].
    apply Hl. intros E; discriminate E.
  - destruct (_ =? _); intros E; discriminate E.
Qed.

Lemma decode_ok value : forall d,
  decoder_ok d -> decoder_ok (fst (TextDecoder.decode d value)).
Proof.
  induction value as [|x value IH]; intros d H; cbn [TextDecoder.decode];
    [exact H|].
  pose proof (handler_ok d (Byte.to_N x) H) as H1.
  destruct (TextDecoder.handler d (Byte.to_N x)) as [d1 cps].
  pose proof (serialize_boundary d1 cps) as H2.
  destruct (TextDecoder.serialize d1 cps) as [d2 out].
  specialize (IH d2). destruct (TextDecoder.decode d2 value) as [d3 out'].
  cbn [fst] in *. apply IH. unfold decoder_ok in *. rewrite H2. exact H1.
Qed.

Lemma handler_line_feed d :
  decoder_ok d ->
  exists pre, snd (TextDecoder.handler d 10) = pre ++ [10].
Proof.
  intros H. unfold TextDecoder.handler.
  destruct (TextDecoder.bytes_needed d =? 0).
  - exists []. reflexivity.
  - replace (TextDecoder.lower_boundary d <=? 10) with false.
    + exists [TextDecoder.REPLACEMENT]. reflexivity.
    + symmetry. apply N.leb_gt. unfold decoder_ok in H. lia.
Qed.

Lemma serialize_line_feed cps : forall d,
  exists out, snd (TextDecoder.serialize d (cps ++ [10])) = out ++ [LF].
Proof.
  induction cps as [|cp cps IH]; intros d; cbn [app TextDecoder.serialize].
  - exists []. rewrite andb_false_r. reflexivity.
  - match goal with
    | |- context [TextDecoder.serialize ?d1 (cps ++ [10])] =>
        destruct (IH d1) as [out Hout];
        destruct (TextDecoder.serialize d1 (cps ++ [10])) as [d2 out2]
    end.
    cbn [snd] in Hout. subst out2.
    destruct (negb (TextDecoder.bom_seen d) && (cp =? 65279)); cbn [snd].
    + exists out. reflexivity.
    + exists (TextDecoder.utf16 cp ++ out). rewrite app_assoc. reflexivity.
Qed.

Lemma decode_ends_line d value :
  decoder_ok d -> ends_line value ->
  last (snd (TextDecoder.decode d value)) = Some LF.
Proof.
  intros Hd Hv. apply last_Some in Hv as [v ->].
  rewrite decode_app. cbn [snd].
  pose proof (decode_ok v d Hd) as Hd1.
  set (d1 := fst (TextDecoder.decode d v)) in *.
  cbn [TextDecoder.decode].
  replace (Byte.to_N Byte.x0a) with 10 by reflexivity.
  destruct (handler_line_feed d1 Hd1) as [pre Hpre].
  destruct (TextDecoder.handler d1 10) as [d2 cps]. cbn [snd] in Hpre. subst cps.
  destruct (serialize_line_feed pre d2) as [out Hout].
  destruct (TextDecoder.serialize d2 (pre ++ [10])) as [d3 out3].
  cbn [snd] in Hout. subst out3. cbn [snd].
  rewrite app_nil_r, app_assoc. apply last_snoc.
Qed.

Lemma aligned_lines reads : forall d,
  decoder_ok d -> line_aligned reads ->
  concat (lines_per_read d reads) = lines_of (snd (TextDecoder.decode d (concat reads))).
Proof.
  induction reads as [|value rest IH]; intros d Hd Hal.
  - reflexivity.
  - cbn [lines_per_read concat].
    rewrite decode_app. cbn [snd].
    pose proof (decode_ok value d Hd) as Hd1.
    destruct (TextDecoder.decode d value) as [d1 chunk] eqn:Hdec.
    cbn [fst snd concat] in *.
    destruct rest as [|value' rest'].
    + cbn [lines_per_read concat TextDecoder.decode snd].
      rewrite !app_nil_r. reflexivity.
    + destruct Hal as [Hv Hrest].
      rewrite (IH d1 Hd1 Hrest).
      rewrite lines_of_app; [reflexivity|].
      pose proof (decode_ends_line d value Hd Hv) as Hl.
      rewrite Hdec in Hl. exact Hl.
Qed.

Lemma new_decoder_ok : decoder_ok TextDecoder.new.
Proof. intros E; discriminate E. Qed.

Lemma aligned_consumed reads :
  line_aligned reads -> consumed_lines reads = protocol_lines reads.
Proof. apply aligned_lines, new_decoder_ok. Qed.

(** ** What the stream consumer keeps *)

Section Keeps.

Variable base : list Message.
Variable P : Effect -> Prop.
Hypothesis P_loop : forall e, loop_effect base e -> P e.

Lemma keeps_ret {A} (a : A) : keeps base P (ret a).
Proof. intros st H. cbn. repeat split; auto. Qed.

Lemma keeps_throw {A} e : keeps base P (@throw A e).
Proof. intros st H. cbn. repeat split; auto. Qed.

Lemma keeps_emit e : P e -> keeps base P (emit e).
Proof. intros He st H. cbn. repeat split; auto. Qed.

Lemma keeps_bind {A B} (m : Comp A) (k : A -> Comp B) :
  keeps base P m -> (forall a, keeps base P (k a)) -> keeps base P (bind m k).
Proof.
  intros Hm Hk st H. destruct (Hm st H) as (H1 & H2 & H3 & H4 & H5).
  unfold bind. destruct (m st) as [[[a|e] s1] t1]; cbn [final trace fst snd] in *.
  - destruct (Hk a s1 H1) as (K1 & K2 & K3 & K4 & K5).
    destruct (k a s1) as [[o s2] t2]; cbn [final trace fst snd] in *.
    repeat split; try congruence. apply Forall_app; split; assumption.
  - repeat split; assumption.
Qed.

Lemma keeps_try_catch {A} (m : Comp A) h :
  keeps base P m -> (forall e, keeps base P (h e)) -> keeps base P (try_catch m h).
Proof.
  intros Hm Hh st H. destruct (Hm st H) as (H1 & H2 & H3 & H4 & H5).
  unfold try_catch. destruct (m st) as [[[a|e] s1] t1]; cbn [final trace fst snd] in *.
  - repeat split; assumption.
  - destruct (Hh e s1 H1) as (K1 & K2 & K3 & K4 & K5).
    destruct (h e s1) as [[o s2] t2]; cbn [final trace fst snd] in *.
    repeat split; try congruence. apply Forall_app; split; assumption.
Qed.

Lemma keeps_setMessages updater :
  (forall ms, log_open base ms -> log_open base (updater ms)) ->
  keeps base P (setMessages updater).
Proof.
  intros Hu st H. cbn. repeat split; auto.
  repeat constructor. apply P_loop. cbn. apply Hu, H.
Qed.

Lemma chunk_updater_keeps acc ms :
  log_open base ms -> log_open base (chunk_updater acc ms).
Proof.
  intros (a & -> & Ha). rewrite chunk_updater_open by exact Ha.
  eexists. split; [reflexivity | exact Ha].
Qed.

Lemma error_updater_keeps acc error ms :
  log_open base ms -> log_open base (error_updater acc error ms).
Proof.
  intros (a & -> & Ha). rewrite error_updater_open by exact Ha.
  eexists. split; [reflexivity | exact Ha].
Qed.

Lemma catch_updater_keeps e ms :
  log_open base ms -> log_open base (catch_updater e ms).
Proof.
  intros (a & -> & Ha). rewrite catch_updater_open by exact Ha.
  eexists. split; [reflexivity | exact Ha].
Qed.

Ltac keeps_step :=
  first
    [ apply keeps_ret
    | apply keeps_throw
    | apply keeps_emit; apply P_loop; exact I
    | apply keeps_setMessages; intros ? ?;
      first [ apply chunk_updater_keeps | apply error_updater_keeps
            | apply catch_updater_keeps ]; assumption
    | apply keeps_bind; [|intros ?]
    | match goal with
      | |- keeps _ _ (match ?x with _ => _ end) => destruct x
      end ].

Lemma keeps_on_line line loc : keeps base P (on_line line loc).
Proof. unfold on_line. repeat keeps_step. Qed.

Lemma keeps_for_lines lines : forall loc, keeps base P (for_lines lines loc).
Proof.
  induction lines as [|line rest IH]; intros loc; cbn [for_lines].
  - apply keeps_ret.
  - apply keeps_bind; [apply keeps_on_line|].
    intros [loc' []]; cbn [fst snd]; [apply IH | apply keeps_ret].
Qed.

Lemma keeps_read_loop reads : forall close decoder loc,
  keeps base P (read_loop reads close decoder loc).
Proof.
  induction reads as [|value rest IH]; intros close decoder loc; cbn [read_loop].
  - repeat keeps_step.
  - apply keeps_bind; [apply keeps_emit, P_loop; exact I|]. intros _.
    destruct (cancelled loc); [apply keeps_emit, P_loop; exact I|].
    destruct (TextDecoder.decode decoder value) as [decoder' chunk].
    apply keeps_bind; [apply keeps_for_lines|]. intros loc'. apply IH.
Qed.

Lemma keeps_catch_block e : keeps base P (catch_block e).
Proof. unfold catch_block. repeat keeps_step. Qed.

Hypothesis P_fetch : forall method url payload, P (Fetch method url payload).

Lemma keeps_try_block var env net userQuery :
  keeps base P (try_block var env net userQuery).
Proof.
  unfold try_block, fetch.
  apply keeps_bind.
  { apply keeps_bind; [apply keeps_emit, P_fetch|].
    intros _. destruct net; [apply keeps_throw | apply keeps_ret]. }
  intros response. destruct (ok response); [|apply keeps_throw].
  destruct (body response); [apply keeps_read_loop | apply keeps_throw].
Qed.

Lemma keeps_try_catch_blocks var env net userQuery :
  keeps base P (try_catch (try_block var env net userQuery) catch_block).
Proof.
  apply keeps_try_catch; [apply keeps_try_block | apply keeps_catch_block].
Qed.

End Keeps.

Lemma loop_effect_stream base e : loop_effect base e -> stream_effect base e.
Proof. destruct e; cbn; auto. Qed.

Lemma keeps_submission base var env net userQuery :
  keeps base (stream_effect base)
        (try_catch (try_block var env net userQuery) catch_block).
Proof.
  apply keeps_try_catch_blocks; [apply loop_effect_stream | intros; exact I].
Qed.

Lemma loop_effects_no_requests base t :
  Forall (loop_effect base) t -> requests t = [].
Proof.
  induction 1 as [|e t He _ IH]; [reflexivity|].
  destruct e; cbn in He |- *; solve [exact IH | contradiction].
Qed.

Lemma requests_app t1 t2 : requests (t1 ++ t2) = requests t1 ++ requests t2.
Proof. apply flat_map_app. Qed.

Lemma submission_requests base var env net userQuery st :
  log_open base (messages st) ->
  requests (trace (try_catch (try_block var env net userQuery) catch_block st)) =
    [(POST, interpolate (env !! var) ++ lit "/ask")].
Proof.
  intros Hopen.
  assert (Hcatch : forall e s, requests (trace (catch_block e s)) = []) by reflexivity.
  unfold try_catch, try_block, fetch, bind at 1 2.
  unfold emit at 1. destruct net as [e | response].
  - cbn -[interpolate lit catch_block].
    pose proof (Hcatch e st) as Hc.
    destruct (catch_block e st) as [[o s2] t2]. cbn [trace snd] in Hc |- *.
    cbn [requests flat_map app]. fold (requests t2). rewrite Hc. reflexivity.
  - cbn [ret app].
    assert (Hthrow : forall e,
              requests (trace (let '(o, s2, t2) := catch_block e st in
                               (o, s2, (Fetch POST (interpolate (env !! var) ++ lit "/ask")
                                          (Some (JObject [(lit "question", JString userQuery)]))
                                        :: []) ++ t2)))
              = [(POST, interpolate (env !! var) ++ lit "/ask")]).
    { intros e. pose proof (Hcatch e st) as Hc.
      destruct (catch_block e st) as [[o s2] t2]. cbn [trace snd] in Hc |- *.
      cbn [requests flat_map app]. fold (requests t2). rewrite Hc. reflexivity. }
    destruct (ok response); [|apply Hthrow].
    destruct (body response) as [stream|]; [|apply Hthrow].
    destruct (keeps_read_loop base (loop_effect base) (fun e H => H)
                (chunks stream) (ending stream) TextDecoder.new (mkLocals [] false)
                st Hopen) as (Hopen' & _ & _ & _ & Heff).
    apply (loop_effects_no_requests base) in Heff.
    destruct (read_loop _ _ _ _ st) as [[[u|e] s1] t1]; cbn [final trace fst snd] in *.
    + cbn [requests flat_map app]. fold (requests t1). rewrite Heff. reflexivity.
    + pose proof (Hcatch e s1) as Hc.
      destruct (catch_block e s1) as [[o s2] t2]. cbn [trace snd] in Hc |- *.
      cbn [app]. change (Fetch POST ?u ?b :: t1 ++ t2)
        with ([Fetch POST u b] ++ t1 ++ t2).
      rewrite !requests_app, Heff, Hc. reflexivity.
Qed.

(** * The claims *)

(** ** Lines that are not events *)

(** C7: a decoded line that does not begin with the prefix [data: ] is
    passed over: the accumulator and the reader flag, the message log and the
    rest of the state are unchanged, nothing is emitted, and the loop goes on
    to the next line. *)
Theorem non_data_line_ignored line loc st :
  (forall rest, line <> lit "data: " ++ rest) ->
  on_line line loc st = (Returns (loc, Next), st, []).
Proof.
  intros H. apply on_line_other_prefix.
  destruct (startsWith line (lit "data: ")) eqn:E; [|reflexivity].
  apply startsWith_inv in E as [rest ->]. exfalso. exact (H rest eq_refl).
Qed.

Lemma non_data_line_ignored_witness :
  on_line (lit "event: ping") (mkLocals (lit "ab") false) sample_state =
    (Returns (mkLocals (lit "ab") false, Next), sample_state, []).
Proof.
  apply non_data_line_ignored.
  intros rest H. vm_compute in H. discriminate H.
Defined.



(** ** The guard *)

(** C8: when the input is empty or only white space, or a submission is in
    flight, [handleSubmit] only calls [preventDefault]: the message log, the
    input and the busy flag are as they were and no request is sent. *)
Theorem rejected_submit_changes_nothing var env net st :
  Forall (fun c => is_white_space c = true) (input st) \/ loading st = true ->
  handleSubmit_at var env net st = (Returns tt, st, [PreventDefault]).
Proof.
  intros H. apply handleSubmit_rejected. unfold accepted.
  destruct H as [H | H].
  - rewrite (trim_white _ H). reflexivity.
  - rewrite H. apply andb_false_r.
Qed.

Lemma rejected_submit_changes_nothing_witness :
  handleSubmit ∅ (streaming [] Closes) (mkState [] (lit "  ") false true)
    = (Returns tt, mkState [] (lit "  ") false true, [PreventDefault])
  /\ handleSubmit ∅ (streaming [] Closes) (mkState [] (lit "again") true true)
    = (Returns tt, mkState [] (lit "again") true true, [PreventDefault]).
Proof.
  split.
  - apply (rejected_submit_changes_nothing "NEXT_PUBLIC_API_URL").
    left. simpl. repeat constructor.
  - apply (rejected_submit_changes_nothing "NEXT_PUBLIC_API_URL").
    right. reflexivity.
Defined.

(** ** An error event with no assistant message to carry it *)

(** C10: when a well-formed error event is processed and the log is empty or
    ends with a message that is not the assistant's, a new assistant message
    is appended whose content is [Error: ] followed by the error text alone
    (neither the accumulated content nor the blank line), flagged as an
    error; the reader is cancelled and the loop is left. *)
Theorem error_event_without_open_message line error loc st :
  carries line (Error error) ->
  (forall m, last (messages st) = Some m -> is_assistant m = false) ->
  on_line line loc st =
    (Returns (mkLocals (accumulatedContent loc) true, Break),
     mkState (messages st ++ [mkMessage assistant (lit "Error: " ++ error) (Some true)])
             (input st) (loading st) (isServerReady st),
     [Console ErrorLevel;
      SetMessages (messages st
                     ++ [mkMessage assistant (lit "Error: " ++ error) (Some true)]);
      ReaderCancel]).
Proof.
  intros Hc Hlast. rewrite (on_line_error _ _ _ _ Hc).
  assert (Hup : error_updater (accumulatedContent loc) error (messages st) =
                messages st ++ [mkMessage assistant (lit "Error: " ++ error) (Some true)]).
  { unfold error_updater. destruct (last (messages st)) as [m|] eqn:E; [|reflexivity].
    rewrite (Hlast m eq_refl). reflexivity. }
  rewrite Hup. reflexivity.
Qed.

Ltac carry :=
  eexists _, _; split;
  [ reflexivity
  | split; [ vm_compute; reflexivity | split; vm_compute; reflexivity ] ].

Lemma error_event_without_open_message_witness :
  let st := mkState [mkMessage user (lit "X") None] [] true true in
  on_line (lit "data: " ++ quoted_text "{'type':'error','error':'rate limited'}")
          (mkLocals (lit "Partial answer") false) st =
    (Returns (mkLocals (lit "Partial answer") true, Break),
     mkState [mkMessage user (lit "X") None;
              mkMessage assistant (lit "Error: rate limited") (Some true)]
             [] true true,
     [Console ErrorLevel;
      SetMessages [mkMessage user (lit "X") None;
                   mkMessage assistant (lit "Error: rate limited") (Some true)];
      ReaderCancel]).
Proof.
  intros st.
  apply (error_event_without_open_message
           (lit "data: " ++ quoted_text "{'type':'error','error':'rate limited'}")
           (lit "rate limited") (mkLocals (lit "Partial answer") false) st).
  - carry.
  - intros m H. simpl in H. injection H as <-. reflexivity.
Defined.

(** ** A submission whose stream is read to its end *)

Lemma handleSubmit_streaming var env status text reads close st :
  accepted st = true ->
  let r := read_loop reads close TextDecoder.new (mkLocals [] false) (opened st) in
  outcome r = Returns tt ->
  handleSubmit_at var env
    (Resolves (mkResponse true status text (Some (mkStream reads close)))) st =
    (Returns tt,
     mkState (messages (final r)) (input (final r)) false (isServerReady (final r)),
     opening st
       ++ (Fetch POST (interpolate (env !! var) ++ lit "/ask")
                 (Some (JObject [(lit "question", JString (input st))]))
             :: trace r)
       ++ [SetLoading false]).
Proof.
  intros Hacc r Ho.
  rewrite handleSubmit_accepted by exact Hacc. cbn zeta.
  rewrite try_catch_returns.
  - rewrite try_block_streaming. cbn zeta. fold r.
    cbn [outcome final trace fst snd]. rewrite Ho. reflexivity.
  - exists tt. rewrite try_block_streaming. cbn zeta. exact Ho.
Qed.

Lemma handleSubmit_events var env status text reads close st evs :
  accepted st = true ->
  events_of (consumed_lines reads) evs ->
  has_error evs = true \/ close = Closes ->
  let r := handleSubmit_at var env
             (Resolves (mkResponse true status text (Some (mkStream reads close)))) st in
  outcome r = Returns tt
  /\ final r =
       mkState (messages st
                  ++ [mkMessage user (input st) None;
                      mkMessage assistant (streamed_text evs)
                        (if has_error evs then Some true else None)])
               [] false (isServerReady st)
  /\ (has_error evs = true ->
      exists pre,
        trace r = pre ++ [Console ErrorLevel; SetMessages (messages (final r));
                          ReaderCancel; ReaderRead; Console LogLevel;
                          SetLoading false]).
Proof.
  intros Hacc Hev Hend r. subst r.
  destruct (read_loop_events reads close TextDecoder.new (mkLocals [] false) (opened st)
              (messages st ++ [mkMessage user (input st) None])
              (mkMessage assistant [] None) evs
              eq_refl eq_refl eq_refl eq_refl Hev Hend) as (Ho & Hfin & Htr).
  rewrite (handleSubmit_streaming var env status text reads close st Hacc Ho).
  cbn [outcome final trace fst snd]. rewrite Hfin.
  cbn [messages input isServerReady opened accumulatedContent role isError app].
  split; [reflexivity|]. split.
  - rewrite <- app_assoc. reflexivity.
  - intros Hne. destruct (Htr Hne) as [pre Hpre]. rewrite Hpre, Hfin.
    cbn [messages].
    eexists (opening st ++ Fetch POST _ _ :: pre).
    rewrite <- (app_assoc (opening st)). f_equal. cbn [app]. f_equal.
    rewrite <- app_assoc. reflexivity.
Qed.

(** ** Chunks *)

(** C1, as stated, fails: a chunk event whose line is cut in two by the reads
    is lost.  The decoder carries an unfinished character from one read to
    the next, but the loop splits each read's text into lines on its own and
    carries no unfinished line.  Here the stream as a whole carries one chunk
    event with content [ab]; the first read ends inside its line, the first
    half fails to parse, the second half lacks the prefix, and the assistant
    message stays empty. *)
Lemma split_line_loses_chunk :
  let reads := [quoted "data: {'type':'chunk','con"; line_bytes "tent':'ab'}"] in
  let r := handleSubmit ∅ (streaming reads Closes) sample_state in
  events_of (protocol_lines reads) (map Chunk [lit "ab"])
  /\ messages (final r) =
       [mkMessage user (input sample_state) None; mkMessage assistant [] None]
  /\ messages (final r) <>
       [mkMessage user (input sample_state) None;
        mkMessage assistant (concat [lit "ab"]) None].
Proof.
  cbn zeta. split; [|split].
  - replace (protocol_lines _)
      with [lit "data: " ++ quoted_text "{'type':'chunk','content':'ab'}"]
      by (vm_compute; reflexivity).
    apply events_cons; [carry | apply events_nil].
  - vm_compute. reflexivity.
  - vm_compute. intros H. discriminate H.
Qed.

(** C1, amended: when every read but the last stops right after a line feed,
    so that no protocol line lies across two reads, and the lines of the
    stream carry chunk events with contents [texts] (and no error event), the
    submission returns with the open assistant message holding the
    concatenation of [texts], in order, not flagged as an error.  Lines that
    carry no event may lie between those that do. *)
Theorem chunks_concatenate_when_line_aligned var env st status text reads texts :
  accepted st = true ->
  line_aligned reads ->
  events_of (protocol_lines reads) (map Chunk texts) ->
  let r := handleSubmit_at var env
             (Resolves (mkResponse true status text (Some (mkStream reads Closes)))) st in
  outcome r = Returns tt
  /\ final r =
       mkState (messages st
                  ++ [mkMessage user (input st) None;
                      mkMessage assistant (concat texts) None])
               [] false (isServerReady st).
Proof.
  intros Hacc Hal Hev r. subst r.
  rewrite <- (aligned_consumed reads Hal) in Hev.
  destruct (handleSubmit_events var env status text reads Closes st (map Chunk texts)
              Hacc Hev (or_intror eq_refl)) as (Ho & Hfin & _).
  rewrite has_error_chunks, streamed_text_chunks in Hfin.
  split; assumption.
Qed.

Lemma chunks_concatenate_when_line_aligned_witness :
  let reads := [line_bytes "data: {'type':'chunk','content':'A Certificate '}";
                line_bytes ": keep-alive"
                  ++ line_bytes "data: {'type':'chunk','content':'of Occupancy is...'}"] in
  let r := handleSubmit ∅ (streaming reads Closes) sample_state in
  outcome r = Returns tt
  /\ final r =
       mkState [mkMessage user (lit "What is a Certificate of Occupancy?") None;
                mkMessage assistant
                  (concat [lit "A Certificate "; lit "of Occupancy is..."]) None]
               [] false true.
Proof.
  cbn zeta.
  apply (chunks_concatenate_when_line_aligned "NEXT_PUBLIC_API_URL" ∅ sample_state
           200 (lit "OK")).
  - reflexivity.
  - split; [reflexivity | exact I].
  - replace (protocol_lines _)
      with [lit "data: " ++ quoted_text "{'type':'chunk','content':'A Certificate '}";
            lit ": keep-alive";
            lit "data: " ++ quoted_text "{'type':'chunk','content':'of Occupancy is...'}"]
      by (vm_compute; reflexivity).
    apply events_cons; [carry|].
    apply events_skip; [apply other_prefix_carries_nothing; reflexivity|].
    apply events_cons; [carry|]. apply events_nil.
Defined.

(** ** Error events *)

(** C2, as stated, fails: an error event whose line is cut in two by the
    reads is missed, for the same reason a chunk event is.  Here the stream
    as a whole carries a chunk event, an error event and another chunk event;
    the first read ends inside the line of the error event.  The first half
    of that line fails to parse and is logged, the second half lacks the
    prefix, the reader is never cancelled, the chunk after the error event is
    appended, and the assistant message ends up with both chunks, not flagged
    and without the error text. *)
Lemma split_error_line_is_missed :
  let reads := [line_bytes "data: {'type':'chunk','content':'Partial'}"
                  ++ quoted "data: {'type':'error','err";
                line_bytes "or':'rate limited'}"
                  ++ line_bytes "data: {'type':'chunk','content':' more'}"] in
  let r := handleSubmit ∅ (streaming reads Closes) (mkState [] (lit "X") false true) in
  events_of (protocol_lines reads)
            (map Chunk [lit "Partial"] ++ Error (lit "rate limited")
               :: [Chunk (lit " more")])
  /\ final r =
       mkState [mkMessage user (lit "X") None;
                mkMessage assistant (lit "Partial more") None]
               [] false true
  /\ reader_ops (trace r) = [ReaderRead; ReaderRead; ReaderRead]
  /\ messages (final r) <>
       [mkMessage user (lit "X") None;
        mkMessage assistant
          (concat [lit "Partial"] ++ [LF; LF] ++ lit "Error: " ++ lit "rate limited")
          (Some true)].
Proof.
  cbn zeta. split; [|split; [|split]].
  - replace (protocol_lines _)
      with [lit "data: " ++ quoted_text "{'type':'chunk','content':'Partial'}";
            lit "data: " ++ quoted_text "{'type':'error','error':'rate limited'}";
            lit "data: " ++ quoted_text "{'type':'chunk','content':' more'}"]
      by (vm_compute; reflexivity).
    repeat (apply events_cons; [carry|]). apply events_nil.
  - vm_compute. reflexivity.
  - vm_compute. reflexivity.
  - vm_compute. intros H. discriminate H.
Qed.

(** C2, amended: when every read but the last stops right after a line feed,
    so that no protocol line lies across two reads, and the lines of the
    stream carry chunk events [texts], then a well-formed error event, then
    anything at all, the submission returns with the open assistant message
    holding the accumulated chunks followed by a blank line and [Error: ]
    with the error text, flagged as an error.  The update of that event is
    the last change of the log: the reader is cancelled right after it, the
    next read reports the end, and the busy flag is reset.  Neither the
    events after the error event nor the way the stream would have ended make
    a difference. *)
Theorem error_event_ends_aligned_stream
    var env st status text reads close texts error later :
  accepted st = true ->
  line_aligned reads ->
  events_of (protocol_lines reads) (map Chunk texts ++ Error error :: later) ->
  let r := handleSubmit_at var env
             (Resolves (mkResponse true status text (Some (mkStream reads close)))) st in
  outcome r = Returns tt
  /\ final r =
       mkState (messages st
                  ++ [mkMessage user (input st) None;
                      mkMessage assistant
                        (concat texts ++ [LF; LF] ++ lit "Error: " ++ error)
                        (Some true)])
               [] false (isServerReady st)
  /\ exists pre,
       trace r = pre ++ [Console ErrorLevel; SetMessages (messages (final r));
                         ReaderCancel; ReaderRead; Console LogLevel;
                         SetLoading false].
Proof.
  intros Hacc Hal Hev r. subst r.
  rewrite <- (aligned_consumed reads Hal) in Hev.
  assert (Herr : has_error (map Chunk texts ++ Error error :: later) = true).
  { rewrite has_error_app, has_error_chunks. reflexivity. }
  destruct (handleSubmit_events var env status text reads close st _
              Hacc Hev (or_introl Herr)) as (Ho & Hfin & Htr).
  rewrite Herr, streamed_text_app, has_error_chunks, streamed_text_chunks in Hfin.
  cbn [streamed_text] in Hfin.
  split; [exact Ho|]. split; [exact Hfin|]. exact (Htr Herr).
Qed.

Lemma error_event_ends_aligned_stream_witness :
  let reads :=
    [line_bytes "data: {'type':'chunk','content':'Partial answer'}";
     line_bytes "data: {'type':'error','error':'rate limited'}"
       ++ line_bytes "data: {'type':'chunk','content':' and more'}";
     line_bytes "data: {'type':'chunk','content':' and more still'}"] in
  let r := handleSubmit ∅ (streaming reads (Errors (mkError (lit "reset"))))
             (mkState [] (lit "X") false true) in
  outcome r = Returns tt
  /\ final r =
       mkState [mkMessage user (lit "X") None;
                mkMessage assistant
                  (concat [lit "Partial answer"] ++ [LF; LF] ++ lit "Error: "
                     ++ lit "rate limited")
                  (Some true)]
               [] false true
  /\ exists pre,
       trace r = pre ++ [Console ErrorLevel; SetMessages (messages (final r));
                         ReaderCancel; ReaderRead; Console LogLevel;
                         SetLoading false].
Proof.
  cbn zeta.
  apply (error_event_ends_aligned_stream "NEXT_PUBLIC_API_URL" ∅
           (mkState [] (lit "X") false true) 200 (lit "OK") _ _
           [lit "Partial answer"] (lit "rate limited")
           [Chunk (lit " and more"); Chunk (lit " and more still")]).
  - reflexivity.
  - cbn [line_aligned]. repeat split; vm_compute; reflexivity.
  - replace (protocol_lines _)
      with [lit "data: " ++ quoted_text "{'type':'chunk','content':'Partial answer'}";
            lit "data: " ++ quoted_text "{'type':'error','error':'rate limited'}";
            lit "data: " ++ quoted_text "{'type':'chunk','content':' and more'}";
            lit "data: " ++ quoted_text "{'type':'chunk','content':' and more still'}"]
      by (vm_compute; reflexivity).
    repeat (apply events_cons; [carry|]). apply events_nil.
Defined.

(** ** The busy flag *)

Lemma opened_log_open st :
  log_open (messages st ++ [mkMessage user (input st) None]) (messages (opened st)).
Proof. eexists. split; reflexivity. Qed.

Lemma stream_effects_no_loading base t v :
  Forall (stream_effect base) t -> List.filter (is_SetLoading v) t = [].
Proof.
  induction 1 as [|e t He _ IH]; [reflexivity|].
  destruct e; cbn in He |- *; solve [exact IH | contradiction].
Qed.

Lemma stream_effects_logs base t :
  Forall (stream_effect base) t -> Forall (log_open base) (logs t).
Proof.
  induction 1 as [|e t He _ IH]; [constructor|].
  destruct e; cbn in He |- *; try exact IH; try contradiction.
  constructor; assumption.
Qed.

Lemma stream_effects_no_ready base t :
  Forall (stream_effect base) t ->
  Forall (fun e => forall v, e <> SetIsServerReady v) t.
Proof.
  induction 1 as [|e t He _ IH]; constructor; [|exact IH].
  intros v ->. exact He.
Qed.

(** C3, as stated, fails for a call that is turned away because a submission
    is in flight: the busy flag is still up when that call returns. *)
Lemma busy_stays_up_when_rejected_in_flight :
  let st := mkState [mkMessage user (lit "X") None; mkMessage assistant [] None]
                    (lit "again") true true in
  let r := handleSubmit ∅ (streaming [] Closes) st in
  loading (final r) = true /\ loading (final r) <> false.
Proof. cbn zeta. split; [vm_compute; reflexivity | vm_compute; discriminate]. Qed.

(** C3, amended: a call that passes the guard returns with the busy flag
    down, having raised it once and lowered it once, the lowering being the
    last thing it does, whether the stream ends, is cancelled or something
    throws.  A call the guard turns away touches neither the flag nor
    anything else: the flag stays as it was (down for a blank input while
    idle, up while a submission is in flight). *)
Theorem busy_reset_once var env net st :
  let r := handleSubmit_at var env net st in
  if accepted st
  then loading (final r) = false
       /\ List.filter (is_SetLoading true) (trace r) = [SetLoading true]
       /\ List.filter (is_SetLoading false) (trace r) = [SetLoading false]
       /\ exists pre, trace r = pre ++ [SetLoading false]
  else final r = st /\ trace r = [PreventDefault].
Proof.
  intros r. subst r. destruct (accepted st) eqn:Hacc.
  - rewrite handleSubmit_accepted by exact Hacc. cbn zeta.
    set (r0 := try_catch _ _ _).
    cbn [final trace fst snd loading].
    destruct (keeps_submission _ var env net (input st) (opened st) (opened_log_open st))
      as (_ & _ & _ & _ & Heff).
    fold r0 in Heff.
    split; [reflexivity|].
    rewrite !List.filter_app.
    rewrite !(stream_effects_no_loading _ _ _ Heff).
    repeat split.
    exists (opening st ++ trace r0). rewrite <- app_assoc. reflexivity.
  - rewrite handleSubmit_rejected by exact Hacc. split; reflexivity.
Qed.

(** ** The message log *)

Lemma chunk_updater_step acc prev : log_step prev (chunk_updater acc prev).
Proof.
  unfold chunk_updater. destruct (last prev) as [a|] eqn:E; [|constructor].
  destruct (is_assistant a) eqn:Ha; [|constructor].
  apply last_Some in E as [base ->]. rewrite slice_snoc.
  apply step_rewrite; [exact Ha | exact Ha].
Qed.

Lemma error_updater_step acc error prev :
  log_step prev (error_updater acc error prev).
Proof.
  unfold error_updater. destruct (last prev) as [a|] eqn:E; [|constructor].
  destruct (is_assistant a) eqn:Ha; [|constructor].
  apply last_Some in E as [base ->]. rewrite slice_snoc.
  apply step_rewrite; [exact Ha | exact Ha].
Qed.

Lemma catch_updater_step e prev : log_step prev (catch_updater e prev).
Proof.
  unfold catch_updater. destruct (last prev) as [a|] eqn:E; [|constructor].
  destruct (is_assistant a) eqn:Ha; [|constructor].
  apply last_Some in E as [base ->]. rewrite slice_snoc.
  apply step_rewrite; [exact Ha | exact Ha].
Qed.

(** C5: over a submission that passes the guard, the log is first extended
    by the question, then by an empty assistant message; from then on every
    update, and the log at the end, is the log so far with only its last
    element rewritten, that element being an assistant message.  So one
    message at most is being written to, it is the last one, and all that
    comes before it is only ever appended to.  A call the guard turns away
    does not update the log.  Taken one by one and on any log, the updaters
    of the chunk event, of the error event and of the [catch] block leave
    the log as it is, append to it, or rewrite its last element when that is
    an assistant message. *)
Theorem open_message_stays_last var env net st :
  let r := handleSubmit_at var env net st in
  let base := messages st ++ [mkMessage user (input st) None] in
  (if accepted st
   then exists later,
          logs (trace r) = base :: (base ++ [mkMessage assistant [] None]) :: later
          /\ Forall (log_open base) later
          /\ log_open base (messages (final r))
   else logs (trace r) = [] /\ messages (final r) = messages st)
  /\ (forall acc error e prev,
        log_step prev (chunk_updater acc prev)
        /\ log_step prev (error_updater acc error prev)
        /\ log_step prev (catch_updater e prev)).
Proof.
  intros r base. subst r. split.
  2:{ intros acc error e prev.
      split; [apply chunk_updater_step|].
      split; [apply error_updater_step | apply catch_updater_step]. }
  destruct (accepted st) eqn:Hacc.
  - rewrite handleSubmit_accepted by exact Hacc. cbn zeta.
    set (r0 := try_catch _ _ _).
    cbn [final trace fst snd messages].
    destruct (keeps_submission _ var env net (input st) (opened st) (opened_log_open st))
      as (Hopen & _ & _ & _ & Heff).
    fold r0 in Heff, Hopen. fold base in Heff, Hopen.
    exists (logs (trace r0)). split; [|split].
    + unfold logs. rewrite !flat_map_app. cbn [opening flat_map app].
      rewrite app_nil_r. reflexivity.
    + apply stream_effects_logs. exact Heff.
    + exact Hopen.
  - rewrite handleSubmit_rejected by exact Hacc. split; reflexivity.
Qed.

(** ** The readiness poller *)

Lemma health_attempt_ready env reply st :
  ready reply ->
  health_attempt env reply st =
    (Returns true,
     mkState (messages st) (input st) (loading st) true,
     [Fetch GET (health_url env) None; Console LogLevel; SetIsServerReady true]).
Proof.
  intros (text & members & -> & Hparse & Hstatus).
  unfold health_attempt, try_catch, bind, emit.
  rewrite Hparse. cbn [get]. rewrite Hstatus, is_string_refl. reflexivity.
Qed.

Lemma health_attempt_waiting env reply st :
  ~ ready reply ->
  exists t,
    health_attempt env reply st = (Returns false, st, Fetch GET (health_url env) None :: t)
    /\ Forall (fun e => is_Console e = true) t.
Proof.
  intros Hnot. unfold health_attempt, try_catch, bind, emit.
  destruct reply as [e | response_ok text].
  { exists [Console ErrorLevel]. split; [reflexivity | repeat constructor]. }
  destruct (Json.parse text) as [data|] eqn:Hparse.
  2:{ exists [Console ErrorLevel]. split; [reflexivity | repeat constructor]. }
  destruct response_ok.
  2:{ exists []. split; [reflexivity | constructor]. }
  destruct data as [| b | lexeme | s | items | members];
    try (exists []; split; [reflexivity | constructor]).
  { exists [Console ErrorLevel]. split; [reflexivity | repeat constructor]. }
  destruct (is_string (get (JObject members) (lit "status")) (lit "ready")) eqn:Hs.
  - exfalso. apply Hnot. apply is_string_true in Hs.
    exists text, members. auto.
  - exists []. split; [reflexivity | constructor].
Qed.

Lemma quiet_console t :
  Forall (fun e => is_Console e = true) t -> quiet t = [].
Proof.
  induction 1 as [|e t He _ IH]; [reflexivity|].
  unfold quiet in *. cbn [List.filter]. rewrite He. exact IH.
Qed.

Lemma quiet_app t1 t2 : quiet (t1 ++ t2) = quiet t1 ++ quiet t2.
Proof. apply List.filter_app. Qed.

Lemma checkServerStatus_waiting env waits :
  Forall (fun w => ~ ready w) waits ->
  forall st,
    exists t,
      quiet t = flat_map (fun _ => [Fetch GET (health_url env) None; SetTimeout 2000]) waits
      /\ forall rest,
           checkServerStatus env (waits ++ rest) st =
             (outcome (checkServerStatus env rest st),
              final (checkServerStatus env rest st),
              t ++ trace (checkServerStatus env rest st)).
Proof.
  induction 1 as [|w waits Hw _ IH]; intros st.
  - exists []. split; [reflexivity|]. intros rest. cbn [app]. apply run_eta.
  - destruct (health_attempt_waiting env w st Hw) as (t1 & Hrun & Ht1).
    destruct (IH st) as (t2 & Hq & Hrest).
    exists ((Fetch GET (health_url env) None :: t1) ++ SetTimeout 2000 :: t2).
    split.
    + rewrite quiet_app. change (Fetch GET (health_url env) None :: t1)
        with ([Fetch GET (health_url env) None] ++ t1).
      rewrite quiet_app, (quiet_console t1 Ht1).
      change (SetTimeout 2000 :: t2) with ([SetTimeout 2000] ++ t2).
      rewrite quiet_app, Hq. reflexivity.
    + intros rest. cbn [app checkServerStatus].
      erewrite bind_returns by exact Hrun. cbn match.
      erewrite bind_returns by reflexivity.
      rewrite Hrest. cbn [outcome final trace fst snd app].
      rewrite <- app_assoc. reflexivity.
Qed.

Lemma health_attempt_never_lowers env reply st :
  Forall (fun e => e <> SetIsServerReady false) (trace (health_attempt env reply st)).
Proof.
  unfold health_attempt, try_catch, bind, emit.
  destruct reply as [e | response_ok text]; [repeat constructor; discriminate|].
  destruct (Json.parse text) as [data|]; [|repeat constructor; discriminate].
  destruct response_ok; [|repeat constructor; discriminate].
  destruct data; try (repeat constructor; discriminate).
  destruct (is_string _ _); repeat constructor; discriminate.
Qed.

Lemma checkServerStatus_never_lowers env replies :
  forall st,
    Forall (fun e => e <> SetIsServerReady false)
           (trace (checkServerStatus env replies st)).
Proof.
  induction replies as [|reply later IH]; intros st.
  - repeat constructor; discriminate.
  - cbn [checkServerStatus]. unfold bind at 1.
    pose proof (health_attempt_never_lowers env reply st) as H1.
    destruct (health_attempt env reply st) as [[[returned|e] s1] t1];
      cbn [trace snd] in H1; [|exact H1].
    destruct returned.
    + cbn. rewrite app_nil_r. exact H1.
    + unfold bind, emit. specialize (IH s1).
      destruct (checkServerStatus env later s1) as [[o s2] t2].
      cbn [trace snd app] in *. apply Forall_app. split; [exact H1|].
      constructor; [discriminate | exact IH].
Qed.

Lemma handleSubmit_leaves_readiness var env net st :
  isServerReady (final (handleSubmit_at var env net st)) = isServerReady st
  /\ Forall (fun e => forall v, e <> SetIsServerReady v)
            (trace (handleSubmit_at var env net st)).
Proof.
  destruct (accepted st) eqn:Hacc.
  - rewrite handleSubmit_accepted by exact Hacc. cbn zeta.
    destruct (keeps_submission _ var env net (input st) (opened st) (opened_log_open st))
      as (_ & _ & _ & Hready & Heff).
    cbn [final trace fst snd isServerReady]. split; [exact Hready|].
    apply Forall_app. split; [repeat constructor; discriminate|].
    apply Forall_app. split; [|repeat constructor; discriminate].
    apply (stream_effects_no_ready _ _ Heff).
  - rewrite handleSubmit_rejected by exact Hacc. split; [reflexivity|].
    repeat constructor; discriminate.
Qed.

(** C9: against replies of which the first to be ready comes after the
    replies [waits], the poller asks the health endpoint once per reply;
    after each reply that is not ready (the request failed, the body did not
    parse, the status was not a success or the body's status was not
    [ready]) it does nothing but log and set a timer of 2000 ms for the next
    poll; on the ready reply it sets the readiness flag and returns without
    a timer, whatever replies would have followed.  As long as no ready reply
    has come it is still polling and the state is as it was.  Nothing sets
    the flag to false: not the poller, for any replies, and not
    [handleSubmit], which leaves the flag alone. *)
Theorem poller_runs_until_ready env waits reply later st :
  Forall (fun w => ~ ready w) waits ->
  ready reply ->
  let poll := Fetch GET (health_url env) None in
  let retries := flat_map (fun _ => [poll; SetTimeout 2000]) waits in
  let r := checkServerStatus env (waits ++ reply :: later) st in
  let r' := checkServerStatus env waits st in
  (outcome r = Returns Stopped
   /\ final r = mkState (messages st) (input st) (loading st) true
   /\ quiet (trace r) = retries ++ [poll; SetIsServerReady true])
  /\ (outcome r' = Returns Polling
      /\ final r' = st
      /\ quiet (trace r') = retries ++ [poll])
  /\ (forall replies st',
        Forall (fun e => e <> SetIsServerReady false)
               (trace (checkServerStatus env replies st')))
  /\ (forall var net st',
        isServerReady (final (handleSubmit_at var env net st')) = isServerReady st'
        /\ Forall (fun e => forall v, e <> SetIsServerReady v)
                  (trace (handleSubmit_at var env net st'))).
Proof.
  intros Hwaits Hready poll retries r r'.
  destruct (checkServerStatus_waiting env waits Hwaits st) as (t & Hq & Hrest).
  split; [|split; [|split]].
  - subst r. rewrite Hrest. cbn [checkServerStatus].
    erewrite bind_returns by (apply health_attempt_ready; exact Hready).
    cbn [outcome final trace fst snd ret]. rewrite quiet_app, Hq.
    repeat split.
  - subst r'. rewrite <- (app_nil_r waits) at 1 2 3. rewrite Hrest.
    cbn [outcome final trace fst snd]. rewrite quiet_app, Hq.
    repeat split.
  - intros replies st'. apply checkServerStatus_never_lowers.
  - intros var net st'. apply handleSubmit_leaves_readiness.
Qed.

Lemma poller_runs_until_ready_witness :
  let env := documented_env in
  let poll := Fetch GET (lit "http://localhost:8000/health") None in
  let waits := [HealthRejects (mkError (lit "Failed to fetch"));
                HealthResolves false (quoted_text "{'status':'ready'}");
                HealthResolves true (quoted_text "{'status':'starting'}");
                HealthResolves true (quoted_text "null")] in
  let reply := HealthResolves true (quoted_text "{'status':'ready'}") in
  let st := mkState [] [] false false in
  let r := checkServerStatus env (waits ++ reply :: [HealthRejects (mkError [])]) st in
  outcome r = Returns Stopped
  /\ final r = mkState [] [] false true
  /\ quiet (trace r) =
       [poll; SetTimeout 2000; poll; SetTimeout 2000; poll; SetTimeout 2000;
        poll; SetTimeout 2000; poll; SetIsServerReady true].
Proof.
  cbn zeta.
  refine (proj1 (poller_runs_until_ready documented_env _ _ _ _ _ _)).
  - repeat constructor;
      intros (text & members & Heq & Hparse & Hstatus);
      try discriminate Heq;
      injection Heq as <-; vm_compute in Hparse;
      try discriminate Hparse;
      injection Hparse as <-; vm_compute in Hstatus; discriminate Hstatus.
  - eexists _, _. split; [reflexivity|].
    split; vm_compute; reflexivity.
Defined.

(** ** The backend's address *)

Lemma handleSubmit_requests var env net st :
  requests (trace (handleSubmit_at var env net st)) =
    if accepted st then [(POST, interpolate (env !! var) ++ lit "/ask")] else [].
Proof.
  destruct (accepted st) eqn:Hacc.
  - rewrite handleSubmit_accepted by exact Hacc. cbn zeta. cbn [trace snd].
    rewrite !requests_app.
    rewrite (submission_requests _ var env net (input st) (opened st)
               (opened_log_open st)).
    reflexivity.
  - rewrite handleSubmit_rejected by exact Hacc. reflexivity.
Qed.

Lemma health_attempt_requests env reply st :
  requests (trace (health_attempt env reply st)) = [(GET, health_url env)].
Proof.
  unfold health_attempt, try_catch, bind, emit.
  destruct reply as [e | response_ok text]; [reflexivity|].
  destruct (Json.parse text) as [data|]; [|reflexivity].
  destruct response_ok; [|reflexivity].
  destruct data; try reflexivity.
  destruct (is_string _ _); reflexivity.
Qed.

Lemma checkServerStatus_requests env replies :
  forall st,
    Forall (fun request => request = (GET, health_url env))
           (requests (trace (checkServerStatus env replies st))).
Proof.
  induction replies as [|reply later IH]; intros st.
  - repeat constructor.
  - cbn [checkServerStatus]. unfold bind at 1.
    pose proof (health_attempt_requests env reply st) as H1.
    destruct (health_attempt env reply st) as [[[returned|e] s1] t1];
      cbn [trace snd] in H1 |- *.
    2:{ rewrite H1. repeat constructor. }
    destruct returned.
    + cbn [ret trace snd]. rewrite app_nil_r, H1. repeat constructor.
    + unfold bind, emit. specialize (IH s1).
      destruct (checkServerStatus env later s1) as [[o s2] t2].
      cbn [trace snd app] in *. rewrite requests_app, H1.
      constructor; [reflexivity | exact IH].
Qed.

(** C4 fails on the code: the poller reads [NEXT_PUBLIC_BACKEND_URL] and
    [handleSubmit] reads [NEXT_PUBLIC_API_URL] (the earlier revision,
    [NEXT_PUBLIC_PYTHON_BACKEND_URL]).  With the environment of the README,
    which sets the first only, the health request goes to the configured
    backend and the ask request to the literal text [undefined/ask]. *)
Lemma ask_and_health_read_different_variables :
  requests (trace (checkServerStatus documented_env [] sample_state))
    = [(GET, lit "http://localhost:8000/health")]
  /\ requests (trace (handleSubmit documented_env
                        (Rejects (mkError (lit "Failed to fetch"))) sample_state))
    = [(POST, lit "undefined/ask")]
  /\ requests (trace (handleSubmit_earlier documented_env
                        (Rejects (mkError (lit "Failed to fetch"))) sample_state))
    = [(POST, lit "undefined/ask")].
Proof. repeat split; vm_compute; reflexivity. Qed.

(** * Further properties of the page *)

(** ** Transport failures *)

Lemma catch_block_open e st base a :
  messages st = base ++ [a] -> is_assistant a = true ->
  catch_block e st =
    (Returns tt,
     mkState (base ++ [mkMessage (role a) (failure_text e) (Some true)])
             (input st) (loading st) (isServerReady st),
     [Console ErrorLevel;
      SetMessages (base ++ [mkMessage (role a) (failure_text e) (Some true)])]).
Proof.
  intros Hlog Ha. unfold catch_block, bind, emit, setMessages.
  cbn [messages input loading isServerReady app].
  rewrite Hlog, catch_updater_open by exact Ha. reflexivity.
Qed.

Lemma handleSubmit_failing var env net st e s1 t1 :
  accepted st = true ->
  try_block var env net (input st) (opened st) = (Throws e, s1, t1) ->
  forall base a,
    messages s1 = base ++ [a] -> is_assistant a = true ->
    handleSubmit_at var env net st =
      (Returns tt,
       mkState (base ++ [mkMessage (role a) (failure_text e) (Some true)])
               (input s1) false (isServerReady s1),
       opening st
         ++ (t1 ++ [Console ErrorLevel;
                    SetMessages (base ++ [mkMessage (role a) (failure_text e)
                                            (Some true)])])
         ++ [SetLoading false]).
Proof.
  intros Hacc Htry base a Hlog Ha.
  rewrite handleSubmit_accepted by exact Hacc. cbn zeta.
  unfold try_catch. rewrite Htry.
  rewrite (catch_block_open e s1 base a Hlog Ha).
  reflexivity.
Qed.

(** X1: when [fetch] rejects, an accepted submission ends with the assistant
    message holding the fixed failure text followed by the error's message,
    flagged as an error; the busy flag is down, the input cleared, and
    nothing was done between the request and the [catch] block. *)
Theorem fetch_rejection_is_shown var env e st :
  accepted st = true ->
  handleSubmit_at var env (Rejects e) st =
    (Returns tt,
     mkState (messages st
                ++ [mkMessage user (input st) None;
                    mkMessage assistant (failure_text e) (Some true)])
             [] false (isServerReady st),
     opening st
       ++ [ask_request var env (input st); Console ErrorLevel;
           SetMessages (messages st
                          ++ [mkMessage user (input st) None;
                              mkMessage assistant (failure_text e) (Some true)])]
       ++ [SetLoading false]).
Proof.
  intros Hacc.
  rewrite (handleSubmit_failing var env (Rejects e) st e (opened st)
             [ask_request var env (input st)] Hacc eq_refl
             (messages st ++ [mkMessage user (input st) None])
             (mkMessage assistant [] None) eq_refl eq_refl).
  cbn [role opened input isServerReady app]. rewrite <- !app_assoc. reflexivity.
Qed.

Lemma fetch_rejection_is_shown_witness :
  final (handleSubmit ∅ (Rejects (mkError (lit "Failed to fetch"))) sample_state) =
    mkState [mkMessage user (lit "What is a Certificate of Occupancy?") None;
             mkMessage assistant
               (lit "Error: Could not stream response. Details: Failed to fetch")
               (Some true)]
            [] false true.
Proof.
  rewrite (fetch_rejection_is_shown "NEXT_PUBLIC_API_URL" ∅
             (mkError (lit "Failed to fetch")) sample_state eq_refl).
  reflexivity.
Defined.

(** X2: when the response is not a success, or has no body, an accepted
    submission ends with the assistant message holding the failure text with
    the status code and the status text, flagged as an error, the busy flag
    down; a body that came with a failed response is never read. *)
Theorem bad_response_is_shown var env response st :
  accepted st = true ->
  ok response = false \/ body response = None ->
  let e := mkError (lit "Failed to fetch response: " ++ of_number (status response)
                      ++ lit " " ++ statusText response) in
  handleSubmit_at var env (Resolves response) st =
    (Returns tt,
     mkState (messages st
                ++ [mkMessage user (input st) None;
                    mkMessage assistant (failure_text e) (Some true)])
             [] false (isServerReady st),
     opening st
       ++ [ask_request var env (input st); Console ErrorLevel;
           SetMessages (messages st
                          ++ [mkMessage user (input st) None;
                              mkMessage assistant (failure_text e) (Some true)])]
       ++ [SetLoading false]).
Proof.
  intros Hacc Hbad e.
  assert (Htry : try_block var env (Resolves response) (input st) (opened st) =
                 (Throws e, opened st, [ask_request var env (input st)])).
  { unfold try_block, fetch, bind, emit, ret, throw.
    destruct Hbad as [H | H]; rewrite H; [reflexivity|].
    destruct (ok response); reflexivity. }
  rewrite (handleSubmit_failing var env (Resolves response) st e (opened st)
             [ask_request var env (input st)] Hacc Htry
             (messages st ++ [mkMessage user (input st) None])
             (mkMessage assistant [] None) eq_refl eq_refl).
  cbn [role opened input isServerReady app]. rewrite <- !app_assoc. reflexivity.
Qed.

Lemma bad_response_is_shown_witness :
  let response :=
    mkResponse false 503 (lit "Service Unavailable")
      (Some (mkStream [line_bytes "data: {'type':'chunk','content':'ignored'}"] Closes)) in
  final (handleSubmit ∅ (Resolves response) sample_state) =
    mkState [mkMessage user (lit "What is a Certificate of Occupancy?") None;
             mkMessage assistant
               (lit "Error: Could not stream response. Details: Failed to fetch response: 503 Service Unavailable")
               (Some true)]
            [] false true.
Proof.
  intros response.
  rewrite (bad_response_is_shown "NEXT_PUBLIC_API_URL" ∅ response sample_state
             eq_refl (or_introl eq_refl)).
  vm_compute. reflexivity.
Defined.

(** ** The updates and the reads of a run, one by one *)

Lemma logs_app t1 t2 : logs (t1 ++ t2) = logs t1 ++ logs t2.
Proof. apply flat_map_app. Qed.

Lemma logs_console t : Forall (fun e => is_Console e = true) t -> logs t = [].
Proof.
  induction 1 as [|e t He _ IH]; [reflexivity|].
  destruct e; try discriminate He. exact IH.
Qed.

Lemma reader_ops_app t1 t2 : reader_ops (t1 ++ t2) = reader_ops t1 ++ reader_ops t2.
Proof. apply List.filter_app. Qed.

Lemma reader_ops_console t :
  Forall (fun e => is_Console e = true) t -> reader_ops t = [].
Proof.
  induction 1 as [|e t He _ IH]; [reflexivity|].
  destruct e; try discriminate He. exact IH.
Qed.

Lemma shown_app acc e1 e2 :
  shown acc (e1 ++ e2) =
    shown acc e1
      ++ (if has_error e1 then [] else shown (acc ++ streamed_text e1) e2).
Proof.
  revert acc. induction e1 as [|[text|error] e1 IH]; intros acc; cbn.
  - rewrite app_nil_r. reflexivity.
  - rewrite IH, <- app_assoc. reflexivity.
  - reflexivity.
Qed.

Lemma for_lines_story lines evs :
  events_of lines evs ->
  forall loc st base a,
    messages st = base ++ [a] -> is_assistant a = true ->
    logs (trace (for_lines lines loc st)) =
      map (showing base a) (shown (accumulatedContent loc) evs)
    /\ reader_ops (trace (for_lines lines loc st)) =
         if has_error evs then [ReaderCancel] else [].
Proof.
  induction 1 as [| line ev lines evs Hc Hrest IH | line lines evs Hn Hrest IH];
    intros loc st base a Hlog Ha.
  - split; reflexivity.
  - rewrite for_lines_cons. destruct ev as [text|error].
    + erewrite bind_returns by (apply on_line_chunk; exact Hc).
      cbn [fst snd trace]. rewrite Hlog, chunk_updater_open by exact Ha.
      set (a' := mkMessage (role a) (accumulatedContent loc ++ text) (isError a)).
      set (st' := mkState _ _ _ _).
      set (loc1 := mkLocals _ _).
      destruct (IH loc1 st' base a' eq_refl Ha) as [Hlogs Hops].
      split.
      * cbn [app logs flat_map shown map]. fold (logs (trace (for_lines lines loc1 st'))).
        rewrite Hlogs. reflexivity.
      * cbn [app reader_ops List.filter has_error].
        fold (reader_ops (trace (for_lines lines loc1 st'))). exact Hops.
    + erewrite bind_returns by (apply on_line_error; exact Hc).
      cbn [fst snd trace ret]. rewrite Hlog, error_updater_open by exact Ha.
      split; reflexivity.
  - rewrite for_lines_cons.
    destruct (on_line_inert line loc st Hn) as (t & Hrun & Ht).
    erewrite bind_returns by exact Hrun. cbn [fst snd trace].
    destruct (IH loc st base a Hlog Ha) as [Hlogs Hops].
    rewrite logs_app, reader_ops_app, (logs_console t Ht), (reader_ops_console t Ht).
    split; assumption.
Qed.

Lemma read_loop_story reads :
  forall close decoder loc st base a evs,
    messages st = base ++ [a] -> is_assistant a = true ->
    content a = accumulatedContent loc -> cancelled loc = false ->
    events_of (concat (lines_per_read decoder reads)) evs ->
    let r := read_loop reads close decoder loc st in
    logs (trace r) = map (showing base a) (shown (accumulatedContent loc) evs)
    /\ (if has_error evs
        then exists n, (n < length reads)%nat
                       /\ reader_ops (trace r) =
                            repeat ReaderRead (S n) ++ [ReaderCancel; ReaderRead]
        else reader_ops (trace r) = repeat ReaderRead (S (length reads))).
Proof.
  induction reads as [|value rest IH];
    intros close decoder loc st base a evs Hlog Ha Hacc Hcan Hev r; subst r.
  - simpl in Hev. inversion Hev; subst.
    rewrite read_loop_drained by exact Hcan. destruct close; split; reflexivity.
  - cbn [lines_per_read] in Hev.
    destruct (TextDecoder.decode decoder value) as [decoder' chunk] eqn:Hdec.
    cbn [concat] in Hev.
    apply events_of_app_inv in Hev as (e1 & e2 & -> & H1 & H2).
    destruct (for_lines_events _ _ H1 loc st base a Hlog Ha Hacc)
      as (loc' & Ho & Hcan' & Htext & Hfin & _).
    destruct (for_lines_story _ _ H1 loc st base a Hlog Ha) as [Hlogs1 Hops1].
    rewrite Hcan, orb_false_r in Hcan'.
    pose proof (read_loop_cons value rest close decoder loc st loc' Hcan) as Hstep.
    cbn zeta in Hstep. rewrite Hdec in Hstep. cbn [fst snd] in Hstep.
    rewrite (Hstep Ho). clear Hstep.
    cbn [trace snd].
    change (ReaderRead :: ?t1 ++ ?t2) with ([ReaderRead] ++ t1 ++ t2).
    rewrite !logs_app, !reader_ops_app, Hlogs1, Hops1, shown_app, has_error_app.
    change (logs [ReaderRead]) with (@nil (list Message)).
    change (reader_ops [ReaderRead]) with [ReaderRead].
    destruct (has_error e1) eqn:He1.
    + rewrite read_loop_cancelled by exact Hcan'. cbn [trace snd orb].
      split; [rewrite !app_nil_r; reflexivity|].
      exists 0%nat. split; [cbn; lia | reflexivity].
    + cbn [orb app].
      set (a' := mkMessage (role a) (accumulatedContent loc ++ streamed_text e1) (isError a)).
      destruct (IH close decoder' loc' (final (for_lines (lines_of chunk) loc st))
                   base a' e2) as (Hlogs2 & Hops2); try assumption.
      * rewrite Hfin. reflexivity.
      * subst a'. simpl. symmetry. apply Htext. reflexivity.
      * rewrite (Htext eq_refl) in Hlogs2.
        split; [rewrite Hlogs2, map_app; reflexivity|].
        destruct (has_error e2).
        -- destruct Hops2 as (n & Hn & Hops2). exists (S n).
           split; [cbn; lia | rewrite Hops2; reflexivity].
        -- rewrite Hops2. reflexivity.
Qed.

Lemma read_loop_failing reads :
  forall e decoder loc st base a evs,
    messages st = base ++ [a] -> is_assistant a = true ->
    content a = accumulatedContent loc -> cancelled loc = false ->
    events_of (concat (lines_per_read decoder reads)) evs ->
    has_error evs = false ->
    let r := read_loop reads (Errors e) decoder loc st in
    outcome r = Throws e
    /\ final r =
         mkState (base ++ [mkMessage (role a)
                             (accumulatedContent loc ++ streamed_text evs)
                             (isError a)])
                 (input st) (loading st) (isServerReady st).
Proof.
  induction reads as [|value rest IH];
    intros e decoder loc st base a evs Hlog Ha Hacc Hcan Hev Hne r; subst r.
  - simpl in Hev. inversion Hev; subst.
    rewrite read_loop_drained by exact Hcan. cbn [outcome final fst snd streamed_text].
    split; [reflexivity|]. rewrite app_nil_r, <- Hacc.
    destruct st, a; simpl in *. subst. reflexivity.
  - cbn [lines_per_read] in Hev.
    destruct (TextDecoder.decode decoder value) as [decoder' chunk] eqn:Hdec.
    cbn [concat] in Hev.
    apply events_of_app_inv in Hev as (e1 & e2 & -> & H1 & H2).
    rewrite has_error_app in Hne. apply orb_false_elim in Hne as [He1 He2].
    destruct (for_lines_events _ _ H1 loc st base a Hlog Ha Hacc)
      as (loc' & Ho & Hcan' & Htext & Hfin & _).
    rewrite Hcan, orb_false_r, He1 in Hcan'. rewrite He1 in Hfin.
    pose proof (read_loop_cons value rest (Errors e) decoder loc st loc' Hcan) as Hstep.
    cbn zeta in Hstep. rewrite Hdec in Hstep. cbn [fst snd] in Hstep.
    rewrite (Hstep Ho). clear Hstep. cbn [outcome final fst snd].
    set (a' := mkMessage (role a) (accumulatedContent loc ++ streamed_text e1) (isError a)).
    destruct (IH e decoder' loc' (final (for_lines (lines_of chunk) loc st))
                 base a' e2) as (Ho2 & Hfin2); try assumption.
    + rewrite Hfin. reflexivity.
    + subst a'. simpl. symmetry. apply Htext. exact He1.
    + split; [exact Ho2|]. rewrite Hfin2, Hfin. subst a'.
      cbn [role isError input loading isServerReady].
      rewrite (Htext He1), streamed_text_app, He1, <- app_assoc. reflexivity.
Qed.

Lemma handleSubmit_stream_trace var env status text reads close st :
  accepted st = true ->
  let rl := read_loop reads close TextDecoder.new (mkLocals [] false) (opened st) in
  let r := handleSubmit_at var env
             (Resolves (mkResponse true status text (Some (mkStream reads close)))) st in
  trace r =
    opening st
      ++ (ask_request var env (input st) :: trace rl)
      ++ match outcome rl with
         | Returns _ => []
         | Throws e => trace (catch_block e (final rl))
         end
      ++ [SetLoading false]
  /\ final r =
       match outcome rl with
       | Returns _ =>
           mkState (messages (final rl)) (input (final rl)) false
                   (isServerReady (final rl))
       | Throws e =>
           mkState (catch_updater e (messages (final rl))) (input (final rl)) false
                   (isServerReady (final rl))
       end
  /\ outcome r = Returns tt.
Proof.
  intros Hacc rl r. subst r.
  rewrite handleSubmit_accepted by exact Hacc. cbn zeta.
  unfold try_catch. rewrite try_block_streaming. cbn zeta. fold rl.
  destruct rl as [[[u|e] s1] t1]; cbn [outcome final trace fst snd].
  - rewrite app_nil_l. destruct u. repeat split.
  - unfold catch_block, bind, emit, setMessages.
    cbn [outcome final trace fst snd messages input isServerReady app].
    split; [|split; reflexivity]. rewrite <- !app_assoc. reflexivity.
Qed.

Lemma length_shown acc evs : length (shown acc evs) = events_read evs.
Proof.
  revert acc. induction evs as [|[chunk|error] evs IH]; intros acc; cbn.
  - reflexivity.
  - rewrite IH. reflexivity.
  - reflexivity.
Qed.

Lemma events_read_chunks evs : has_error evs = false -> events_read evs = length evs.
Proof.
  induction evs as [|[chunk|error] evs IH]; cbn; intros H.
  - reflexivity.
  - rewrite IH by exact H. reflexivity.
  - discriminate H.
Qed.


(** The updates of a streamed submission: the two that open the turn, those
    of the loop, and the one of the [catch] block when a read rejects. *)
Lemma handleSubmit_logs var env status text reads close st :
  accepted st = true ->
  let base := messages st ++ [mkMessage user (input st) None] in
  let rl := read_loop reads close TextDecoder.new (mkLocals [] false) (opened st) in
  logs (trace (handleSubmit_at var env
                 (Resolves (mkResponse true status text
                              (Some (mkStream reads close)))) st)) =
    [base; base ++ [mkMessage assistant [] None]]
      ++ logs (trace rl)
      ++ match outcome rl with
         | Returns _ => []
         | Throws e => logs (trace (catch_block e (final rl)))
         end.
Proof.
  intros Hacc base rl.
  destruct (handleSubmit_stream_trace var env status text reads close st Hacc)
    as (Htrace & _ & _).
  cbn zeta in Htrace. fold rl in Htrace. rewrite Htrace, !logs_app.
  change (ask_request var env (input st) :: ?t) with ([ask_request var env (input st)] ++ t).
  rewrite logs_app.
  replace (logs [SetLoading false]) with (@nil (list Message)) by reflexivity.
  rewrite app_nil_r. destruct (outcome rl); reflexivity.
Qed.

(** What a streamed submission does with the reader is what its loop does. *)
Lemma handleSubmit_reader_ops var env status text reads close st :
  accepted st = true ->
  reader_ops (trace (handleSubmit_at var env
                       (Resolves (mkResponse true status text
                                    (Some (mkStream reads close)))) st)) =
    reader_ops (trace (read_loop reads close TextDecoder.new
                         (mkLocals [] false) (opened st))).
Proof.
  intros Hacc.
  destruct (handleSubmit_stream_trace var env status text reads close st Hacc)
    as (Htrace & _ & _).
  cbn zeta in Htrace. rewrite Htrace, !reader_ops_app.
  change (ask_request var env (input st) :: ?t) with ([ask_request var env (input st)] ++ t).
  rewrite reader_ops_app.
  replace (reader_ops (match outcome _ with Returns _ => [] | Throws e => _ end))
    with (@nil Effect)
    by (destruct (outcome _); reflexivity).
  cbn [reader_ops List.filter opening ask_request app]. rewrite !app_nil_r.
  reflexivity.
Qed.

(** The reads of the loop, by the events each read carries: one read per
    chunk of the stream up to and including the one that brings the first
    error event, the cancellation, and the read that reports the end; or,
    with no error event, every chunk and the read that ends the stream. *)
Lemma read_loop_reads reads :
  forall close decoder loc st base a evss,
    messages st = base ++ [a] -> is_assistant a = true ->
    content a = accumulatedContent loc -> cancelled loc = false ->
    Forall2 events_of (lines_per_read decoder reads) evss ->
    reader_ops (trace (read_loop reads close decoder loc st)) =
      match first_error_read evss with
      | Some k => repeat ReaderRead (S k) ++ [ReaderCancel; ReaderRead]
      | None => repeat ReaderRead (S (length reads))
      end.
Proof.
  induction reads as [|value rest IH];
    intros close decoder loc st base a evss Hlog Ha Hacc Hcan Hev.
  - inversion Hev; subst.
    rewrite read_loop_drained by exact Hcan. destruct close; reflexivity.
  - cbn [lines_per_read] in Hev.
    destruct (TextDecoder.decode decoder value) as [decoder' chunk] eqn:Hdec.
    inversion Hev as [|? e1 ? evss' H1 H2]; subst.
    destruct (for_lines_events _ _ H1 loc st base a Hlog Ha Hacc)
      as (loc' & Ho & Hcan' & Htext & Hfin & _).
    destruct (for_lines_story _ _ H1 loc st base a Hlog Ha) as [_ Hops1].
    rewrite Hcan, orb_false_r in Hcan'.
    pose proof (read_loop_cons value rest close decoder loc st loc' Hcan) as Hstep.
    cbn zeta in Hstep. rewrite Hdec in Hstep. cbn [fst snd] in Hstep.
    rewrite (Hstep Ho). clear Hstep.
    cbn [trace snd].
    change (ReaderRead :: ?t1 ++ ?t2) with ([ReaderRead] ++ t1 ++ t2).
    rewrite !reader_ops_app, Hops1.
    change (reader_ops [ReaderRead]) with [ReaderRead].
    cbn [first_error_read].
    destruct (has_error e1) eqn:He1.
    + rewrite read_loop_cancelled by exact Hcan'. reflexivity.
    + set (a' := mkMessage (role a) (accumulatedContent loc ++ streamed_text e1) (isError a)).
      rewrite (IH close decoder' loc' (final (for_lines (lines_of chunk) loc st))
                  base a' evss').
      * destruct (first_error_read evss'); reflexivity.
      * rewrite Hfin. reflexivity.
      * exact Ha.
      * subst a'. simpl. symmetry. apply Htext. reflexivity.
      * exact Hcan'.
      * exact H2.
Qed.

(** X3: when a read rejects after the lines read so far carried chunk events
    only, the text streamed so far is not kept: the submission still returns,
    and the [catch] block replaces the content of the assistant message with
    the failure text and the error's message, and flags it.  [setMessages]
    was called once per chunk event before that, after the two calls that
    open the turn; the call of the [catch] block is the last, and gives the
    final log. *)
Theorem read_failure_replaces_partial_answer var env st status text reads e evs :
  accepted st = true ->
  events_of (consumed_lines reads) evs ->
  has_error evs = false ->
  let base := messages st ++ [mkMessage user (input st) None] in
  let failed := base ++ [mkMessage assistant (failure_text e) (Some true)] in
  let r := handleSubmit_at var env
             (Resolves (mkResponse true status text
                          (Some (mkStream reads (Errors e))))) st in
  outcome r = Returns tt
  /\ final r = mkState failed [] false (isServerReady st)
  /\ length (logs (trace r)) = (3 + length evs)%nat
  /\ last (logs (trace r)) = Some failed.
Proof.
  intros Hacc Hev Hne base failed r. subst r.
  set (a0 := mkMessage assistant [] None).
  destruct (handleSubmit_stream_trace var env status text reads (Errors e) st Hacc)
    as (_ & Hfinal & Hout).
  pose proof (handleSubmit_logs var env status text reads (Errors e) st Hacc) as Hl.
  destruct (read_loop_failing reads e TextDecoder.new (mkLocals [] false) (opened st)
              base a0 evs eq_refl eq_refl eq_refl eq_refl Hev Hne) as (Ho & Hfin).
  destruct (read_loop_story reads (Errors e) TextDecoder.new (mkLocals [] false)
              (opened st) base a0 evs eq_refl eq_refl eq_refl eq_refl Hev)
    as (Hlogs & _).
  cbn zeta in *. rewrite Ho in Hfinal, Hl. rewrite Hlogs in Hl.
  erewrite catch_block_open in Hl; [| rewrite Hfin; reflexivity | reflexivity].
  subst a0. cbn [trace snd logs flat_map app role accumulatedContent] in Hl.
  fold base failed in Hl.
  split; [exact Hout|]. split; [|split].
  - rewrite Hfinal, Hfin. cbn [messages input isServerReady opened].
    rewrite catch_updater_open by reflexivity. reflexivity.
  - rewrite Hl. cbn [length].
    rewrite length_app, length_map, length_shown, (events_read_chunks evs Hne).
    cbn [length]. lia.
  - rewrite Hl.
    change (base :: ?x :: ?l ++ [failed]) with ((base :: x :: l) ++ [failed]).
    apply last_snoc.
Qed.

Lemma read_failure_replaces_partial_answer_witness :
  let reads := [line_bytes "data: {'type':'chunk','content':'Partial '}"
                  ++ line_bytes "data: {'type':'chunk','content':'answer'}";
                line_bytes "data: {'type':'chunk','content':' so far'}"] in
  let st := mkState [] (lit "X") false true in
  let failed :=
    [mkMessage user (lit "X") None;
     mkMessage assistant
       (lit "Error: Could not stream response. Details: network error")
       (Some true)] in
  let r := handleSubmit ∅ (streaming reads (Errors (mkError (lit "network error")))) st in
  outcome r = Returns tt
  /\ final r = mkState failed [] false true
  /\ length (logs (trace r)) = 6%nat
  /\ last (logs (trace r)) = Some failed.
Proof.
  intros reads st failed r.
  refine (read_failure_replaces_partial_answer "NEXT_PUBLIC_API_URL" ∅ st
            200 (lit "OK") reads (mkError (lit "network error"))
            [Chunk (lit "Partial "); Chunk (lit "answer"); Chunk (lit " so far")]
            eq_refl _ eq_refl).
  replace (consumed_lines reads)
    with [lit "data: " ++ quoted_text "{'type':'chunk','content':'Partial '}";
          lit "data: " ++ quoted_text "{'type':'chunk','content':'answer'}";
          lit "data: " ++ quoted_text "{'type':'chunk','content':' so far'}"]
    by (vm_compute; reflexivity).
  repeat (apply events_cons; [carry|]). apply events_nil.
Defined.



(** X5: over an accepted submission with a streamed response, given the
    events each read carries: when no read carries an error event, the
    reader is read once per chunk of the stream and once more for its end,
    and never cancelled; when the first error event comes with read number
    [k], counted from 0, the reader is read [k + 1] times, cancelled, and
    read once more, so the chunks of the stream after that read are never
    asked for.  This holds however the stream would have ended. *)
Theorem reads_stop_at_cancel var env st status text reads close evss :
  accepted st = true ->
  Forall2 events_of (lines_per_read TextDecoder.new reads) evss ->
  let r := handleSubmit_at var env
             (Resolves (mkResponse true status text (Some (mkStream reads close)))) st in
  reader_ops (trace r) =
    match first_error_read evss with
    | Some k => repeat ReaderRead (S k) ++ [ReaderCancel; ReaderRead]
    | None => repeat ReaderRead (S (length reads))
    end.
Proof.
  intros Hacc Hev r. subst r.
  rewrite handleSubmit_reader_ops by exact Hacc.
  apply (read_loop_reads reads close TextDecoder.new (mkLocals [] false) (opened st)
           (messages st ++ [mkMessage user (input st) None])
           (mkMessage assistant [] None) evss eq_refl eq_refl eq_refl eq_refl Hev).
Qed.

Lemma reads_stop_at_cancel_witness :
  let reads := [line_bytes "data: {'type':'chunk','content':'A'}";
                line_bytes ": keep-alive"
                  ++ line_bytes "data: {'type':'error','error':'E'}"
                  ++ line_bytes "data: {'type':'chunk','content':'C'}";
                line_bytes "data: {'type':'chunk','content':'D'}";
                line_bytes "data: {'type':'error','error':'F'}"] in
  let st := mkState [] (lit "X") false true in
  let r := handleSubmit ∅ (streaming reads (Errors (mkError []))) st in
  reader_ops (trace r) = [ReaderRead; ReaderRead; ReaderCancel; ReaderRead].
Proof.
  intros reads st r.
  refine (reads_stop_at_cancel "NEXT_PUBLIC_API_URL" ∅ st 200 (lit "OK") reads
            (Errors (mkError []))
            [[Chunk (lit "A")]; [Error (lit "E"); Chunk (lit "C")];
             [Chunk (lit "D")]; [Error (lit "F")]]
            eq_refl _).
  replace (lines_per_read TextDecoder.new reads)
    with [[lit "data: " ++ quoted_text "{'type':'chunk','content':'A'}"];
          [lit ": keep-alive";
           lit "data: " ++ quoted_text "{'type':'error','error':'E'}";
           lit "data: " ++ quoted_text "{'type':'chunk','content':'C'}"];
          [lit "data: " ++ quoted_text "{'type':'chunk','content':'D'}"];
          [lit "data: " ++ quoted_text "{'type':'error','error':'F'}"]]
    by (vm_compute; reflexivity).
  apply List.Forall2_cons; [apply events_cons; [carry | apply events_nil] |].
  apply List.Forall2_cons.
  { apply events_skip; [apply other_prefix_carries_nothing; reflexivity|].
    repeat (apply events_cons; [carry|]). apply events_nil. }
  apply List.Forall2_cons; [apply events_cons; [carry | apply events_nil] |].
  apply List.Forall2_cons; [apply events_cons; [carry | apply events_nil] |].
  apply List.Forall2_nil.
Defined.

(** ** The request of a submission *)

Lemma sent_app t1 t2 : sent (t1 ++ t2) = sent t1 ++ sent t2.
Proof. apply List.filter_app. Qed.

Lemma loop_effects_not_sent base t :
  Forall (loop_effect base) t -> sent t = [].
Proof.
  induction 1 as [|e t He _ IH]; [reflexivity|].
  destruct e; cbn in He |- *; solve [exact IH | contradiction].
Qed.

Lemma submission_sent base var env net userQuery st :
  log_open base (messages st) ->
  sent (trace (try_catch (try_block var env net userQuery) catch_block st)) =
    [ask_request var env userQuery].
Proof.
  intros Hopen.
  assert (Hcatch : forall e s, sent (trace (catch_block e s)) = []) by reflexivity.
  assert (Hthrow : forall e,
            sent (trace (let '(o, s2, t2) := catch_block e st in
                         (o, s2, [ask_request var env userQuery] ++ t2)))
            = [ask_request var env userQuery]).
  { intros e. pose proof (Hcatch e st) as Hc.
    destruct (catch_block e st) as [[o s2] t2]. cbn [trace snd] in Hc |- *.
    rewrite sent_app, Hc. reflexivity. }
  unfold try_catch, try_block, fetch, bind at 1 2.
  unfold emit at 1. fold (ask_request var env userQuery).
  destruct net as [e | response]; [apply Hthrow|].
  cbn [ret app].
  destruct (ok response); [|apply Hthrow].
  destruct (body response) as [stream|]; [|apply Hthrow].
  destruct (keeps_read_loop base (loop_effect base) (fun e H => H)
              (chunks stream) (ending stream) TextDecoder.new (mkLocals [] false)
              st Hopen) as (_ & _ & _ & _ & Heff).
  apply (loop_effects_not_sent base) in Heff.
  destruct (read_loop _ _ _ _ st) as [[[u|e] s1] t1]; cbn [final trace fst snd] in *.
  - change (ask_request var env userQuery :: t1)
      with ([ask_request var env userQuery] ++ t1).
    rewrite sent_app, Heff. reflexivity.
  - pose proof (Hcatch e s1) as Hc.
    destruct (catch_block e s1) as [[o s2] t2]. cbn [trace snd] in Hc |- *.
    cbn [app]. change (ask_request var env userQuery :: t1 ++ t2)
      with ([ask_request var env userQuery] ++ t1 ++ t2).
    rewrite !sent_app, Heff, Hc. reflexivity.
Qed.

(** X6: an accepted submission sends exactly one request, whatever the
    network does with it and however the stream goes: a POST to [/ask] under
    the configured base, whose body is the object with the one member
    [question], the input as typed, not trimmed.  The same untrimmed text is
    the content of the user message appended to the log, which is followed by
    one assistant message; the input is cleared. *)
Theorem one_request_with_the_question_as_typed var env net st :
  accepted st = true ->
  let r := handleSubmit_at var env net st in
  sent (trace r) = [ask_request var env (input st)]
  /\ input (final r) = []
  /\ exists a, is_assistant a = true
               /\ messages (final r) =
                    messages st ++ [mkMessage user (input st) None; a].
Proof.
  intros Hacc r. subst r.
  rewrite handleSubmit_accepted by exact Hacc. cbn zeta.
  cbn [final trace fst snd input messages].
  destruct (keeps_submission _ var env net (input st) (opened st) (opened_log_open st))
    as ((a & Hlog & Ha) & Hin & _).
  split; [|split].
  - rewrite !sent_app.
    rewrite (submission_sent _ var env net (input st) (opened st) (opened_log_open st)).
    reflexivity.
  - exact Hin.
  - exists a. split; [exact Ha|]. rewrite Hlog, <- app_assoc. reflexivity.
Qed.

Lemma one_request_with_the_question_as_typed_witness :
  let st := mkState [] (lit "  hi  ") false true in
  let r := handleSubmit documented_env (Rejects (mkError [])) st in
  sent (trace r) =
    [Fetch POST (lit "undefined/ask")
           (Some (JObject [(lit "question", JString (lit "  hi  "))]))]
  /\ input (final r) = []
  /\ exists a, is_assistant a = true
               /\ messages (final r) = [mkMessage user (lit "  hi  ") None; a].
Proof.
  intros st r.
  exact (one_request_with_the_question_as_typed "NEXT_PUBLIC_API_URL" documented_env
           (Rejects (mkError [])) st eq_refl).
Defined.

(** ** The poller and the rest of the state *)

Lemma health_attempt_cases env reply st :
  exists t,
    health_attempt env reply st =
      (Returns true, mkState (messages st) (input st) (loading st) true, t)
    \/ health_attempt env reply st = (Returns false, st, t).
Proof.
  unfold health_attempt, try_catch, bind, emit.
  destruct reply as [e | response_ok text]; [eexists; right; reflexivity|].
  destruct (Json.parse text) as [data|]; [|eexists; right; reflexivity].
  destruct response_ok; [|eexists; right; reflexivity].
  destruct data; try (eexists; right; reflexivity).
  destruct (is_string _ _); eexists; [left | right]; reflexivity.
Qed.

(** X8: whatever replies the polls get, no exception leaves the poller, and
    it changes nothing but the readiness flag: either it has stopped, and the
    state is the one it started from with the flag set, or it is still
    polling and the state is untouched.  Every request it sends is a GET of
    [/health] under the base it read from the environment. *)
Theorem poller_touches_only_readiness env replies st :
  let r := checkServerStatus env replies st in
  ((outcome r = Returns Stopped
    /\ final r = mkState (messages st) (input st) (loading st) true)
   \/ (outcome r = Returns Polling /\ final r = st))
  /\ Forall (fun request => request = (GET, health_url env)) (requests (trace r)).
Proof.
  intros r. subst r. split; [|apply checkServerStatus_requests].
  revert st. induction replies as [|reply later IH]; intros st.
  - right. split; reflexivity.
  - cbn [checkServerStatus].
    destruct (health_attempt_cases env reply st) as (t & [Hrun | Hrun]);
      erewrite bind_returns by exact Hrun.
    + left. split; reflexivity.
    + cbn match. erewrite bind_returns by reflexivity.
      cbn [outcome final fst snd]. exact (IH st).
Qed.

(** ** Decoding across reads *)

Lemma chunk_texts_decode reads : forall d,
  concat (chunk_texts d reads) = snd (TextDecoder.decode d (concat reads)).
Proof.
  induction reads as [|value rest IH]; intros d; cbn [chunk_texts concat].
  - reflexivity.
  - rewrite decode_app. cbn [snd].
    destruct (TextDecoder.decode d value) as [d1 chunk]. cbn [concat fst snd].
    rewrite IH. reflexivity.
Qed.

Lemma lines_per_read_texts reads : forall d,
  lines_per_read d reads = map lines_of (chunk_texts d reads).
Proof.
  induction reads as [|value rest IH]; intros d; cbn [lines_per_read chunk_texts].
  - reflexivity.
  - destruct (TextDecoder.decode d value) as [d1 chunk]. cbn [map].
    rewrite IH. reflexivity.
Qed.

(** X9: the texts the loop decodes from the reads, put end to end, are the
    decoding of the whole body: two ways of cutting the same bytes into reads
    give the same text overall, also when a cut falls inside a multi-byte
    character, which the decoder then holds back until the next read. *)
Theorem decoding_ignores_read_boundaries reads reads' :
  concat reads = concat reads' ->
  concat (chunk_texts TextDecoder.new reads)
    = concat (chunk_texts TextDecoder.new reads').
Proof.
  intros H. rewrite !chunk_texts_decode, H. reflexivity.
Qed.

Lemma decoding_ignores_read_boundaries_witness :
  let euro := [Byte.xe2; Byte.x82; Byte.xac] in
  chunk_texts TextDecoder.new [[Byte.x61; Byte.xe2]; [Byte.x82]; [Byte.xac; Byte.x62]]
    = [[0x61]; []; [0x20AC; 0x62]]
  /\ concat (chunk_texts TextDecoder.new
               [[Byte.x61; Byte.xe2]; [Byte.x82]; [Byte.xac; Byte.x62]])
     = concat (chunk_texts TextDecoder.new [Byte.x61 :: euro ++ [Byte.x62]]).
Proof.
  intros euro. split; [vm_compute; reflexivity|].
  apply decoding_ignores_read_boundaries. reflexivity.
Defined.

(** ** The view *)

Lemma over_imap {A B} (h : Node -> list B) (g : A -> list B) (l : list A) :
  forall f : nat -> A -> Node,
    (forall i x, flat_map h (descendants (f i x)) = g x) ->
    flat_map h (flat_map descendants (imap f l)) = flat_map g l.
Proof.
  induction l as [|x l IH]; intros f Hf; [reflexivity|].
  rewrite imap_cons. cbn [flat_map]. rewrite flat_map_app, Hf.
  rewrite (IH (f ∘ S)); [reflexivity|]. intros i y. apply Hf.
Qed.

Lemma map_select p {B} (f : Node -> B) view :
  map f (select p view) = flat_map (gather p f) (descendants view).
Proof.
  unfold select. induction (descendants view) as [|n l IH]; [reflexivity|].
  cbn [List.filter flat_map]. unfold gather at 1.
  destruct (p n); cbn [map app]; rewrite IH; reflexivity.
Qed.

Lemma flat_map_single {A B} (f : A -> B) l : flat_map (fun x => [f x]) l = map f l.
Proof. induction l as [|x l IH]; [reflexivity|]. cbn. rewrite IH. reflexivity. Qed.

Lemma flat_map_none {A B} (l : list A) : flat_map (fun _ => @nil B) l = [].
Proof. induction l as [|x l IH]; [reflexivity | exact IH]. Qed.

Lemma chat_box_over {B} (h : Node -> list B) (g : Message -> list B) st :
  (forall i m, flat_map h (descendants (message_view i m)) = g m) ->
  flat_map h (descendants (chat_box st)) =
    h (chat_box st)
      ++ (if Nat.eqb (length (messages st)) 0
          then flat_map h (descendants empty_state)
          else flat_map g (messages st)
                 ++ (if loading st then flat_map h (descendants loading_dots) else [])).
Proof.
  intros Hmsg. unfold chat_box at 1. cbn [descendants flat_map]. fold (chat_box st).
  f_equal. destruct (Nat.eqb (length (messages st)) 0).
  - cbn [flat_map]. rewrite !app_nil_r. reflexivity.
  - rewrite flat_map_app, flat_map_app.
    rewrite (over_imap _ g (messages st) message_view Hmsg).
    destruct (loading st); cbn [flat_map]; rewrite ?app_nil_r; reflexivity.
Qed.

Lemma render_ready_over {B} (h : Node -> list B) st :
  isServerReady st = true ->
  flat_map h (descendants (render st)) =
    h (render st)
      ++ flat_map h (descendants (chat_box st))
      ++ flat_map h (descendants (input_form st))
      ++ flat_map h (descendants credit).
Proof.
  intros H. unfold render. rewrite H. cbn [negb descendants flat_map].
  rewrite !flat_map_app, app_nil_r. reflexivity.
Qed.

Lemma render_ready_root st :
  isServerReady st = true ->
  render st =
    Element "div" [className ["container"%string]] [chat_box st; input_form st; credit].
Proof. intros H. unfold render. rewrite H. reflexivity. Qed.

(** X10: once the backend is ready the page has one button, the send button,
    and it is disabled exactly when [handleSubmit] would turn the call away:
    while a submission is in flight or the input is blank.  The one text
    input is disabled exactly while a submission is in flight. *)
Theorem send_button_follows_guard st :
  isServerReady st = true ->
  map (attr "disabled") (select (tag_is "button") (render st))
    = [Some (ABool (negb (accepted st)))]
  /\ map (attr "disabled") (select (tag_is "input") (render st))
    = [Some (ABool (loading st))].
Proof.
  intros H. rewrite !map_select, !(render_ready_over _ st H).
  rewrite (render_ready_root st H).
  rewrite !(chat_box_over _ (fun _ => []) st) by reflexivity.
  rewrite !flat_map_none.
  assert (Hguard : (loading st || negb (truthy (trim (input st)))) = negb (accepted st)).
  { unfold accepted. destruct (truthy _), (loading st); reflexivity. }
  rewrite <- Hguard.
  assert (Hif : forall (b : bool) (B : Type), (if b then @nil B else []) = [])
    by (intros [] ?; reflexivity).
  split.
  - change (flat_map (gather (tag_is "button") (attr "disabled"))
              (descendants loading_dots)) with (@nil (option AttrValue)).
    rewrite Hif. destruct (Nat.eqb (length (messages st)) 0); reflexivity.
  - change (flat_map (gather (tag_is "input") (attr "disabled"))
              (descendants loading_dots)) with (@nil (option AttrValue)).
    rewrite Hif. destruct (Nat.eqb (length (messages st)) 0); reflexivity.
Qed.

Lemma send_button_follows_guard_witness :
  map (attr "disabled") (select (tag_is "button") (render sample_state))
    = [Some (ABool false)]
  /\ map (attr "disabled")
         (select (tag_is "button") (render (mkState [] (lit "  ") false true)))
    = [Some (ABool true)].
Proof.
  split.
  - exact (proj1 (send_button_follows_guard sample_state eq_refl)).
  - exact (proj1 (send_button_follows_guard (mkState [] (lit "  ") false true) eq_refl)).
Defined.

(** X11: what the page lets the user set off, in document order.  Until the
    backend is ready: nothing, the waiting screen has no handler at all.
    After: the submit handler and the input's change handler, and before
    them one click handler per suggestion card as long as the log is empty;
    with the first message the cards are gone. *)
Theorem interactions_offered st :
  handlers (render st) =
    if isServerReady st
    then (if Nat.eqb (length (messages st)) 0
          then map OnSuggestionClick suggestionCards
          else [])
           ++ [OnSubmit; OnInputChange]
    else [].
Proof.
  unfold handlers. destruct (isServerReady st) eqn:H.
  - rewrite (render_ready_over _ st H), (render_ready_root st H).
    rewrite (chat_box_over _ (fun _ => []) st) by reflexivity.
    rewrite flat_map_none.
    destruct (Nat.eqb (length (messages st)) 0), (loading st); reflexivity.
  - unfold render. rewrite H. reflexivity.
Qed.

Lemma message_view_shows i m :
  flat_map (gather is_bubble bubble_shows) (descendants (message_view i m))
    = [(role m, flagged m, content m)].
Proof.
  unfold message_view.
  destruct (role m), (flagged m);
    match goal with
    | |- _ = [(?r, ?f, ?c)] =>
        transitivity [(r, f, c ++ [])]; [reflexivity | rewrite app_nil_r; reflexivity]
    end.
Qed.

(** X12: once the backend is ready, the page shows one bubble per message of
    the log, in the order of the log: styled as the user's or the
    assistant's by the message's role, styled as an error exactly when the
    message is flagged, and with the message's content as its only text.
    Neither the loading indicator nor anything else counts as a bubble. *)
Theorem every_message_is_shown st :
  isServerReady st = true ->
  map bubble_shows (select is_bubble (render st))
    = map (fun m => (role m, flagged m, content m)) (messages st).
Proof.
  intros H. rewrite map_select, (render_ready_over _ st H), (render_ready_root st H).
  rewrite (chat_box_over _ (fun m => [(role m, flagged m, content m)]) st)
    by apply message_view_shows.
  rewrite flat_map_single.
  destruct (messages st) as [|m ms]; [reflexivity|].
  cbn [length Nat.eqb].
  destruct (loading st); cbn -[map]; rewrite !app_nil_r; reflexivity.
Qed.

Lemma every_message_is_shown_witness :
  let st := mkState [mkMessage user (lit "X") None;
                     mkMessage assistant (lit "Partial" ++ [LF; LF] ++ lit "Error: E")
                       (Some true)]
                    [] true true in
  map bubble_shows (select is_bubble (render st))
    = [(user, false, lit "X");
       (assistant, true, lit "Partial" ++ [LF; LF] ++ lit "Error: E")].
Proof.
  intros st. exact (every_message_is_shown st eq_refl).
Defined.

Lemma chat_box_earlier_over {B} (h : Node -> list B) (g : Message -> list B) st :
  (forall i m, flat_map h (descendants (message_view i m)) = g m) ->
  flat_map h (descendants (chat_box_earlier st)) =
    h (chat_box_earlier st)
      ++ flat_map h
           (flat_map descendants
              (if Nat.eqb (length (messages st)) 0
               then [Element "div" [className ["emptyState"%string]]
                       [Text (lit "Welcome! Ask me anything about Nigerian laws.")]]
               else []))
      ++ flat_map g (messages st)
      ++ flat_map h
           (flat_map descendants
              (if loading st
               then [Element "div" [className ["message"; "assistantMessage"]%string]
                       [Element "div" [className ["messageContent"%string]]
                          [Element "p" [] [Text (lit "Thinking...")]]]]
               else [])).
Proof.
  intros Hmsg. unfold chat_box_earlier at 1. cbn [descendants].
  fold (chat_box_earlier st).
  match goal with
  | |- flat_map h (?x :: ?l) = _ => change (flat_map h (x :: l)) with (h x ++ flat_map h l)
  end.
  rewrite !flat_map_app.
  rewrite (over_imap _ g (messages st) message_view Hmsg). reflexivity.
Qed.

(** X13: in the earlier revision of the page the send button is disabled
    only while a submission is in flight.  With a blank input and nothing in
    flight the button is enabled and the form can be submitted; the guard of
    [handleSubmit] is then all that stands in the way, and the call changes
    nothing and sends nothing.  (In the later revision the button itself is
    disabled in that state.) *)
Theorem earlier_page_relies_on_the_guard env net st :
  loading st = false ->
  Forall (fun c => is_white_space c = true) (input st) ->
  map (attr "disabled") (select (tag_is "button") (render_earlier st))
    = [Some (ABool false)]
  /\ In OnSubmit (handlers (render_earlier st))
  /\ handleSubmit_earlier env net st = (Returns tt, st, [PreventDefault])
  /\ (isServerReady st = true ->
      map (attr "disabled") (select (tag_is "button") (render st))
        = [Some (ABool true)]).
Proof.
  intros Hld Hblank.
  assert (Hacc : accepted st = false).
  { unfold accepted. rewrite (trim_white _ Hblank). reflexivity. }
  split; [|split; [|split]].
  - rewrite map_select. unfold render_earlier. cbn [descendants flat_map].
    rewrite !flat_map_app.
    rewrite (chat_box_earlier_over (gather (tag_is "button") (attr "disabled"))
               (fun _ => []) st) by reflexivity.
    rewrite flat_map_none, Hld.
    destruct (Nat.eqb (length (messages st)) 0); reflexivity.
  - unfold handlers, render_earlier. cbn [descendants flat_map].
    rewrite !flat_map_app. apply in_or_app. right.
    apply in_or_app. right. apply in_or_app. right.
    apply in_or_app. left. cbn. left. reflexivity.
  - apply handleSubmit_rejected. exact Hacc.
  - intros Hready.
    rewrite map_select, (render_ready_over _ st Hready), (render_ready_root st Hready).
    rewrite (chat_box_over _ (fun _ => []) st) by reflexivity.
    rewrite flat_map_none. unfold input_form.
    rewrite (trim_white _ Hblank), !Hld.
    destruct (Nat.eqb (length (messages st)) 0); reflexivity.
Qed.

Lemma earlier_page_relies_on_the_guard_witness :
  let st := mkState [] (lit " ") false true in
  map (attr "disabled") (select (tag_is "button") (render_earlier st))
    = [Some (ABool false)]
  /\ handleSubmit_earlier ∅ (streaming [] Closes) st = (Returns tt, st, [PreventDefault]).
Proof.
  intros st.
  destruct (earlier_page_relies_on_the_guard ∅ (streaming [] Closes) st eq_refl)
    as (Hbutton & _ & Hsubmit & _).
  - repeat constructor.
  - split; assumption.
Defined.

(** ** Suggestions *)

(** X7: clicking a suggestion card replaces whatever was typed by the card's
    title, a space and its subtitle, and touches nothing else.  When that
    text is not blank and nothing is in flight, submitting next sends it as
    the question. *)
Theorem suggestion_becomes_the_question var env net suggestion st :
  loading st = false ->
  truthy (trim (title suggestion ++ lit " " ++ subtitle suggestion)) = true ->
  let question := title suggestion ++ lit " " ++ subtitle suggestion in
  let clicked := handleSuggestionClick suggestion st in
  clicked =
    (Returns tt, mkState (messages st) question (loading st) (isServerReady st),
     [SetInput question])
  /\ sent (trace (handleSubmit_at var env net (final clicked)))
     = [ask_request var env question].
Proof.
  intros Hld Hq question clicked. split; [reflexivity|].
  assert (Hacc : accepted (final clicked) = true).
  { unfold accepted. subst clicked question.
    cbn [handleSuggestionClick setInput final fst snd input loading].
    rewrite Hq, Hld. reflexivity. }
  rewrite handleSubmit_accepted by exact Hacc. cbn zeta. cbn [trace snd].
  rewrite !sent_app.
  rewrite (submission_sent _ var env net (input (final clicked)) (opened (final clicked))
             (opened_log_open (final clicked))).
  reflexivity.
Qed.

Lemma suggestion_becomes_the_question_witness :
  let st := mkState [] (lit "typed before") false true in
  Forall (fun suggestion =>
            sent (trace (handleSubmit documented_env (Rejects (mkError []))
                           (final (handleSuggestionClick suggestion st))))
            = [ask_request "NEXT_PUBLIC_API_URL" documented_env
                 (title suggestion ++ lit " " ++ subtitle suggestion)])
         suggestionCards.
Proof.
  intros st. unfold suggestionCards.
  repeat match goal with
         | |- Forall _ (?s :: _) =>
             apply List.Forall_cons;
             [ exact (proj2 (suggestion_becomes_the_question "NEXT_PUBLIC_API_URL"
                               documented_env (Rejects (mkError [])) s st
                               eq_refl eq_refl)) | ]
         end.
  apply List.Forall_nil.
Defined.

(** ** Lines *)

Lemma split_no_sep sep s : Forall (fun piece => ~ In sep piece) (split sep s).
Proof.
  induction s as [|c s IH]; cbn [split].
  - repeat constructor. intros [].
  - destruct (c =? sep) eqn:E.
    + constructor; [intros [] | exact IH].
    + destruct (split sep s) as [|l ls]; [repeat constructor|].
      * intros [-> | []]. rewrite N.eqb_refl in E. discriminate E.
      * inversion IH as [|? ? Hl Hls]; subst. constructor; [|exact Hls].
        intros [-> | Hin]; [rewrite N.eqb_refl in E; discriminate E | exact (Hl Hin)].
Qed.

Lemma split_whole sep s : ~ In sep s -> split sep s = [s].
Proof.
  induction s as [|c s IH]; intros Hnot; cbn [split]; [reflexivity|].
  destruct (c =? sep) eqn:E.
  - apply N.eqb_eq in E. exfalso. apply Hnot. left. exact E.
  - rewrite IH; [reflexivity|]. intros Hin. apply Hnot. right. exact Hin.
Qed.

(** X14: the lines the loop takes from a decoded read are the pieces between
    its line feeds, untrimmed, without the blank ones.  A text without a line
    feed is one line, itself, with its leading and trailing spaces, unless it
    is blank, and then it is no line; the lines of two texts joined by a line
    feed are the lines of the first followed by the lines of the second.  So
    empty lines, a final line feed or its absence make no difference, no line
    handed to the loop body contains a line feed, and none is blank. *)
Theorem lines_are_cut_at_line_feeds a b :
  (~ In LF a -> lines_of a = if nonempty (trim a) then [a] else [])
  /\ lines_of (a ++ LF :: b) = lines_of a ++ lines_of b
  /\ lines_of (a ++ [LF]) = lines_of a
  /\ Forall (fun line => ~ In LF line /\ trim line <> []) (lines_of a).
Proof.
  split; [|split; [|split]].
  - intros Hnot. unfold lines_of. rewrite split_whole by exact Hnot. reflexivity.
  - unfold lines_of. rewrite split_app_sep, List.filter_app. reflexivity.
  - unfold lines_of. rewrite split_app_sep, List.filter_app.
    cbn [split List.filter]. replace (nonempty (trim [])) with false by reflexivity.
    apply app_nil_r.
  - unfold lines_of. apply Forall_forall. intros line Hin.
    apply list_elem_of_In in Hin.
    apply List.filter_In in Hin as [Hin Hne]. split.
    + pose proof (split_no_sep LF a) as Hall.
      rewrite Forall_forall in Hall. apply Hall. apply list_elem_of_In. exact Hin.
    + intros E. rewrite E in Hne. discriminate Hne.
Qed.

Lemma lines_are_cut_at_line_feeds_witness :
  lines_of (lit " data: 1 ") = [lit " data: 1 "]
  /\ lines_of (lit "  ") = []
  /\ lines_of (lit " data: 1 " ++ LF :: lit "  ") =
       lines_of (lit " data: 1 ") ++ lines_of (lit "  ").
Proof.
  assert (Hfree : forall s, forallb (fun c => negb (c =? LF)) s = true -> ~ In LF s).
  { intros s Hall Hin. rewrite forallb_forall in Hall.
    specialize (Hall LF Hin). rewrite N.eqb_refl in Hall. discriminate Hall. }
  split; [|split].
  - exact (proj1 (lines_are_cut_at_line_feeds (lit " data: 1 ") [])
                  (Hfree (lit " data: 1 ") eq_refl)).
  - exact (proj1 (lines_are_cut_at_line_feeds (lit "  ") [])
                  (Hfree (lit "  ") eq_refl)).
  - exact (proj1 (proj2 (lines_are_cut_at_line_feeds (lit " data: 1 ") (lit "  ")))).
Defined.

(** ** From the waiting screen to the chat *)

Lemma ready_or_not reply : ready reply \/ ~ ready reply.
Proof.
  destruct reply as [e | response_ok text].
  { right. intros (t & ms & Heq & _). discriminate Heq. }
  destruct response_ok.
  2:{ right. intros (t & ms & Heq & _). discriminate Heq. }
  destruct (Json.parse text) as [data|] eqn:Hparse.
  2:{ right. intros (t & ms & Heq & Hp & _). injection Heq as <-. congruence. }
  destruct data as [| b | lexeme | s | items | members];
    try (right; intros (t & ms & Heq & Hp & _); injection Heq as <-; congruence).
  destruct (lookup_member (lit "status") members) as [v|] eqn:Hstatus.
  2:{ right. intros (t & ms & Heq & Hp & Hs). injection Heq as <-.
      rewrite Hparse in Hp. injection Hp as <-. congruence. }
  destruct v as [| b | lexeme | s | items | members'];
    try (right; intros (t & ms & Heq & Hp & Hs); injection Heq as <-;
         rewrite Hparse in Hp; injection Hp as <-; congruence).
  destruct (decide (s = lit "ready")) as [-> | Hne].
  - left. exists text, members. auto.
  - right. intros (t & ms & Heq & Hp & Hs). injection Heq as <-.
    rewrite Hparse in Hp. injection Hp as <-. congruence.
Qed.

Lemma first_ready replies :
  Exists ready replies ->
  exists waits reply later,
    replies = waits ++ reply :: later
    /\ Forall (fun w => ~ ready w) waits /\ ready reply.
Proof.
  induction replies as [|r replies IH]; intros H; [inversion H|].
  destruct (ready_or_not r) as [Hr | Hr].
  - exists [], r, replies. repeat split; [constructor | exact Hr].
  - inversion H as [? ? Hhead | ? ? Htail]; subst; [contradiction|].
    destruct (IH Htail) as (waits & reply & later & -> & Hwaits & Hreply).
    exists (r :: waits), reply, later. repeat split; [constructor; assumption | exact Hreply].
Qed.

(** X15: a page that starts on the waiting screen stays on it, with nothing
    the user could set off, as long as no poll has got a ready reply; once
    one has, the page is the chat and offers the submit handler.  Failed
    polls in between, before or after, make no difference. *)
Theorem page_opens_on_the_first_ready_reply env replies st :
  isServerReady st = false ->
  let view := render (final (checkServerStatus env replies st)) in
  (Forall (fun reply => ~ ready reply) replies -> handlers view = [])
  /\ (Exists ready replies -> In OnSubmit (handlers view)).
Proof.
  intros Hnot view. subst view. split.
  - intros Hwaits.
    destruct (checkServerStatus_waiting env replies Hwaits st) as (t & _ & Hrest).
    specialize (Hrest []). rewrite app_nil_r in Hrest. rewrite Hrest.
    cbn [final fst snd checkServerStatus bind emit ret].
    unfold handlers, render. rewrite Hnot. reflexivity.
  - intros Hex.
    destruct (first_ready replies Hex) as (waits & reply & later & -> & Hwaits & Hreply).
    destruct (checkServerStatus_waiting env waits Hwaits st) as (t & _ & Hrest).
    rewrite Hrest. cbn [final fst snd checkServerStatus].
    erewrite bind_returns by (apply health_attempt_ready; exact Hreply).
    cbn [final fst snd ret].
    set (st' := mkState _ _ _ true).
    unfold handlers. rewrite (render_ready_over _ st' eq_refl).
    apply in_or_app. right. apply in_or_app. right. apply in_or_app. left.
    cbn. left. reflexivity.
Qed.

Lemma page_opens_on_the_first_ready_reply_witness :
  let st := mkState [] [] false false in
  handlers (render (final (checkServerStatus documented_env
                             [HealthRejects (mkError (lit "Failed to fetch"))] st)))
    = []
  /\ In OnSubmit
        (handlers (render (final (checkServerStatus documented_env
                                    [HealthRejects (mkError (lit "Failed to fetch"));
                                     HealthResolves true (quoted_text "{'status':'ready'}")]
                                    st)))).
Proof.
  intros st. split.
  - apply (page_opens_on_the_first_ready_reply documented_env _ st eq_refl).
    repeat constructor. intros (t & ms & Heq & _). discriminate Heq.
  - apply (page_opens_on_the_first_ready_reply documented_env _ st eq_refl).
    apply Exists_cons_tl, Exists_cons_hd.
    eexists _, _. split; [reflexivity|]. split; vm_compute; reflexivity.
Defined.
